(** * Face-detector post-processing of [check_model.py]

    A shallow embedding of the three numeric stages of the script:
    [preprocess_image_topleft] (letterbox), [decode_proposals] (multi-stride
    anchor decoding) and [nms] (greedy non-maximum suppression), together
    with the final division by the letterbox ratio done in [main].

    Numbers.  Python [int]s are [Z] (or [nat] for loop counters and array
    indices).  Python and numpy floats are modelled by exact rationals [Q]:
    rounding is not modelled.  The one place where the script can leave the
    finite numbers is a numpy division, which does not raise on a zero
    divisor but yields [nan] or an infinity; that is [np_div] below.
    A Python division of two [int]s by zero raises [ZeroDivisionError].

    Library calls.  [scores.argsort()] is numpy's default sort, which is
    not stable: [nms] takes the sort as a parameter, of which only numpy's
    promise (the indices, in an order that sorts the scores ascending) is
    assumed.  [cv2.resize] is modelled by the shape of its result and by
    the [cv2.error] it raises for a size with an extent that is not
    positive; the pixel values it interpolates are not modelled. *)

From Equations Require Import Equations.
From Stdlib Require Import String.
From Stdlib Require Import List Arith ZArith QArith Qround Qminmax Lia Lqa.
From Stdlib Require Import Permutation Sorted.
Import ListNotations.

(* ================================================================== *)
(** ** Python exceptions and the error monad *)
(* ================================================================== *)

(** The exceptions the modelled statements can raise. *)
Inductive exn : Set :=
| ZeroDivisionError   (* int / int with a zero divisor *)
| IndexError          (* subscript out of range *)
| ValueError          (* unpacking a row of the wrong length, truth value of a non-scalar,
                         arrays whose shapes do not fit *)
| CvError.            (* cv2.error: an OpenCV call refused its arguments *)


Inductive result (A : Type) : Type :=
| Ok (a : A)
| Raise (e : exn).
Arguments Ok {A} a.
Arguments Raise {A} e.

Definition bind {A B} (m : result A) (k : A -> result B) : result B :=
  match m with
  | Ok a => k a
  | Raise e => Raise e
  end.

Declare Scope py_scope.
Delimit Scope py_scope with py.
Notation "x <- m ;; k" := (bind m (fun x => k))
  (at level 61, m at next level, right associativity) : py_scope.
Local Open Scope py_scope.

(** [xs[i]]: subscript with a non-negative index. *)
Definition getitem {A} (xs : list A) (i : nat) : result A :=
  match nth_error xs i with
  | Some a => Ok a
  | None => Raise IndexError
  end.

(** [range(n)] *)
Definition range (n : nat) : list nat := seq 0 n.

(** A [for] loop whose body updates a state and may raise. *)
Fixpoint for_each {A S} (xs : list A) (body : A -> S -> result S) (s : S)
  : result S :=
  match xs with
  | [] => Ok s
  | x :: xs' => s' <- body x s ;; for_each xs' body s'
  end.

(** A list comprehension whose element expression may raise. *)
Fixpoint map_result {A B} (f : A -> result B) (xs : list A) : result (list B) :=
  match xs with
  | [] => Ok []
  | x :: xs' => y <- f x ;; ys <- map_result f xs' ;; Ok (y :: ys)
  end.

(** [enumerate(xs)] *)
Definition enumerate {A} (xs : list A) : list (nat * A) :=
  combine (seq 0 (length xs)) xs.

(* ================================================================== *)
(** ** Numbers *)
(* ================================================================== *)

Local Open Scope Q_scope.

(** [a / b] on Python ints: true division, raising on a zero divisor. *)
Definition py_truediv (a b : Z) : result Q :=
  if (b =? 0)%Z then Raise ZeroDivisionError
  else Ok (inject_Z a / inject_Z b).

(** [min(a, b)] on two floats: the second argument when it is smaller,
    else the first. *)
Definition py_min (a b : Q) : Q :=
  if Qlt_le_dec b a then b else a.

(** [int(q)]: truncation towards zero. *)
Definition py_int (q : Q) : Z := Z.quot (Qnum q) (Zpos (Qden q)).

(** The value of a numpy float division.  The sign of a zero is not
    modelled; a zero divisor is taken as [+0.0]. *)
Inductive npfloat : Set :=
| Fin (q : Q)
| PosInf
| NegInf
| NaN.

Definition np_div (a b : Q) : npfloat :=
  if Qeq_bool b 0 then
    if Qeq_bool a 0 then NaN
    else if Qle_bool 0 a then PosInf else NegInf
  else Fin (a / b).

(** [v <= t] for a numpy value [v] and a finite [t]; every comparison with
    [nan] is false. *)
Definition np_le (v : npfloat) (t : Q) : bool :=
  match v with
  | Fin q => Qle_bool q t
  | NegInf => true
  | PosInf => false
  | NaN => false
  end.

(* ================================================================== *)
(** ** Configuration *)
(* ================================================================== *)

Definition CONF_THRESHOLD : Q := 1 # 2.
Definition NMS_THRESHOLD : Q := 2 # 5.
(** (height, width) *)
Definition TARGET_SHAPE : Z * Z := (640%Z, 640%Z).

(* ================================================================== *)
(** ** [preprocess_image_topleft] *)
(* ================================================================== *)

(** The [shape] of the input array, [(img_h, img_w, 3)]; array extents are
    never negative. *)
Record image : Set := { img_h : N; img_w : N }.

(** A cell of the canvas: the fill value, or the pixel at row [y] and column
    [x] of the resized image.  The interpolation that gives the pixel its
    value is OpenCV's and is not modelled. *)
Inductive cell : Set :=
| Fill (v : Z)
| Resized (y x : Z).

(** A two-dimensional array of cells, by row and column; [None] outside the
    array. *)
Definition grid_of_cells : Type := Z -> Z -> option cell.

(** What the function computes: the canvas with its shape, the size
    [(new_w, new_h)] of the resized image pasted at its top-left corner, and
    the ratio it returns. *)
Record letterboxed : Type := {
  canvas_h : Z;
  canvas_w : Z;
  new_w : Z;
  new_h : Z;
  ratio : Q;
  canvas : grid_of_cells
}.

(** [cv2.resize(img, (new_w, new_h), ...)]: the shape [(new_h, new_w)] of the
    result.  OpenCV raises [cv2.error] when the size asked for has an extent
    that is not positive. *)
Definition cv2_resize (new_w new_h : Z) : result (Z * Z) :=
  if ((0 <? new_w)%Z && (0 <? new_h)%Z)%bool then Ok (new_h, new_w)
  else Raise CvError.

(** [np.full((height, width, 3), v)]; numpy raises [ValueError] on a negative
    extent. *)
Definition np_full (height width v : Z) : result grid_of_cells :=
  if ((0 <=? height)%Z && (0 <=? width)%Z)%bool then
    Ok (fun y x =>
          if ((0 <=? y)%Z && (y <? height)%Z
              && (0 <=? x)%Z && (x <? width)%Z)%bool
          then Some (Fill v) else None)
  else Raise ValueError.

(** [canvas[0:rows, 0:cols] = resized_img] for a resized image of shape
    [(rows, cols)].  The slice is clipped to the canvas; numpy raises
    [ValueError] when the image does not have the shape of the clipped slice
    (an extent of 1 is broadcast). *)
Definition paste_topleft (canvas : grid_of_cells) (height width : Z)
    (resized_shape : Z * Z) : result grid_of_cells :=
  let '(rows, cols) := resized_shape in
  if (((rows <=? height)%Z || (rows =? 1)%Z)
      && ((cols <=? width)%Z || (cols =? 1)%Z))%bool then
    Ok (fun y x =>
          if ((0 <=? y)%Z && (y <? Z.min rows height)%Z
              && (0 <=? x)%Z && (x <? Z.min cols width)%Z)%bool
          then Some (Resized y x) else canvas y x)
  else Raise ValueError.

Definition preprocess_image_topleft (img : image)
    (target_height target_width : Z) : result letterboxed :=
  let img_h := Z.of_N (img_h img) in
  let img_w := Z.of_N (img_w img) in
  rw <- py_truediv target_width img_w ;;
  rh <- py_truediv target_height img_h ;;
  let ratio := py_min rw rh in
  let new_w := py_int (inject_Z img_w * ratio) in
  let new_h := py_int (inject_Z img_h * ratio) in
  resized_img <- cv2_resize new_w new_h ;;
  blank <- np_full target_height target_width 114 ;;
  canvas <- paste_topleft blank target_height target_width resized_img ;;
  Ok {| canvas_h := target_height; canvas_w := target_width;
        new_w := new_w; new_h := new_h; ratio := ratio; canvas := canvas |}.

(* ================================================================== *)
(** ** [decode_proposals] *)
(* ================================================================== *)

(** A model output after [np.squeeze]: [N] rows of 1 (scores), 4 (boxes) or
    10 (landmarks) floats. *)
Definition tensor : Type := list (list Q).

Definition box : Type := (Q * Q * Q * Q)%type.

(** The dict [{'bbox': ..., 'score': ..., 'kps': ...}]. *)
Record proposal : Type := {
  bbox : box;
  score : Q;
  kps : list (Q * Q)
}.

Definition strides : list nat := [8; 16; 32]%nat.

(** A row of the score tensor used as a scalar. *)
Definition scalar (row : list Q) : result Q :=
  match row with
  | [s] => Ok s
  | _ => Raise ValueError
  end.

(** [l, t, r, b = row] *)
Definition unpack4 (row : list Q) : result box :=
  match row with
  | [l; t; r; b] => Ok (l, t, r, b)
  | _ => Raise ValueError
  end.

Definition of_nat (n : nat) : Q := inject_Z (Z.of_nat n).

(** [int(np.ceil(extent / stride))] *)
Definition feature_size (extent : Z) (stride : nat) : nat :=
  Z.to_nat (Qceiling (inject_Z extent / of_nat stride)).

Definition anchor_center (c stride : nat) : Q :=
  (of_nat c + (1 # 2)) * of_nat stride.

(** The flat index of anchor [a] of cell [(y, x)]. *)
Definition flat_index (feature_width y x anchor_idx : nat) : nat :=
  (y * feature_width * 2 + x * 2 + anchor_idx)%nat.

(** The body of the innermost loop. *)
Definition decode_anchor (scores boxes kps : tensor)
    (stride feature_width y x anchor_idx : nat)
    (proposals : list proposal) : result (list proposal) :=
  let idx := flat_index feature_width y x anchor_idx in
  row <- getitem scores idx ;;
  score <- scalar row ;;
  if Qlt_le_dec score CONF_THRESHOLD then Ok proposals
  else
    box_pred <- getitem boxes idx ;;
    let anchor_cx := anchor_center x stride in
    let anchor_cy := anchor_center y stride in
    ltrb <- unpack4 (map (fun v => v * of_nat stride) box_pred) ;;
    let '(l, t, r, b) := ltrb in
    let bbox := (anchor_cx - l, anchor_cy - t, anchor_cx + r, anchor_cy + b) in
    kps_pred <- getitem kps idx ;;
    decoded_kps <-
      map_result (fun k =>
        kx <- getitem kps_pred (k * 2) ;;
        ky <- getitem kps_pred (k * 2 + 1) ;;
        Ok (anchor_cx + kx * of_nat stride, anchor_cy + ky * of_nat stride))
        (range 5) ;;
    Ok (proposals ++ [{| bbox := bbox; score := score; kps := decoded_kps |}]).

(** The body of the loop over strides. *)
Definition decode_stride (outputs : list tensor) (img_width img_height : Z)
    (i_stride : nat * nat) (proposals : list proposal)
  : result (list proposal) :=
  let '(i, stride) := i_stride in
  scores <- getitem outputs i ;;
  boxes <- getitem outputs (i + 3) ;;
  kps <- getitem outputs (i + 6) ;;
  let feature_height := feature_size img_height stride in
  let feature_width := feature_size img_width stride in
  for_each (range feature_height) (fun y =>
    for_each (range feature_width) (fun x =>
      for_each (range 2) (fun anchor_idx =>
        decode_anchor scores boxes kps stride feature_width y x anchor_idx)))
    proposals.

Definition decode_proposals (outputs : list tensor) (img_width img_height : Z)
  : result (list proposal) :=
  for_each (enumerate strides) (decode_stride outputs img_width img_height) [].

(* ================================================================== *)
(** ** [nms] *)
(* ================================================================== *)

(** [scores[i]] for an index of [order]. *)
Definition score_at (scores : list Q) (i : nat) : Q := nth i scores 0.

(** [scores.argsort()].  numpy promises the indices of [scores] in an order
    that sorts the scores ascending; the default sorting kind is not stable,
    so the order of indices with equal scores is not fixed.  [nms] is
    therefore modelled for any sort that keeps this promise, and the sort is
    a parameter [argsort] of the functions below. *)
Definition sorts_ascending (argsort : list Q -> list nat) : Prop :=
  forall scores,
    Permutation (argsort scores) (seq 0 (length scores))
    /\ StronglySorted
         (fun i j => score_at scores i <= score_at scores j)
         (argsort scores).

(** One sort that keeps the promise, used to run [nms] on concrete inputs:
    an insertion sort, which is stable (equal scores keep their index
    order). *)
Fixpoint insert_index (scores : list Q) (i : nat) (sorted : list nat)
  : list nat :=
  match sorted with
  | [] => [i]
  | j :: sorted' =>
      if Qle_bool (nth i scores 0) (nth j scores 0) then i :: sorted
      else j :: insert_index scores i sorted'
  end.

Definition stable_argsort (scores : list Q) : list nat :=
  fold_right (insert_index scores) [] (seq 0 (length scores)).

(** Another one, which puts equal scores in descending index order. *)
Fixpoint insert_index_last (scores : list Q) (i : nat) (sorted : list nat)
  : list nat :=
  match sorted with
  | [] => [i]
  | j :: sorted' =>
      if Qle_bool (nth j scores 0) (nth i scores 0)
      then j :: insert_index_last scores i sorted'
      else i :: sorted
  end.

Definition reverse_argsort (scores : list Q) : list nat :=
  fold_right (insert_index_last scores) [] (seq 0 (length scores)).

Definition box_area (b : box) : Q :=
  let '(x1, y1, x2, y2) := b in (x2 - x1) * (y2 - y1).

(** The entries of [intersection], [union] and [ovr] for the kept box [bi]
    and a remaining box [bj]. *)
Definition intersection (bi bj : box) : Q :=
  let '(ix1, iy1, ix2, iy2) := bi in
  let '(jx1, jy1, jx2, jy2) := bj in
  let xx1 := Qmax ix1 jx1 in
  let yy1 := Qmax iy1 jy1 in
  let xx2 := Qmin ix2 jx2 in
  let yy2 := Qmin iy2 jy2 in
  let w := Qmax 0 (xx2 - xx1) in
  let h := Qmax 0 (yy2 - yy1) in
  w * h.

Definition union_area (bi bj : box) : Q :=
  let area := box_area bi in
  area + box_area bj - intersection bi bj.

Definition ovr (bi bj : box) : npfloat :=
  np_div (intersection bi bj) (union_area bi bj).

(** [boxes[i]] for an index of [order]. *)
Definition box_at (boxes : list box) (i : nat) : box :=
  nth i boxes (0, 0, 0, 0).

(** The test [ovr <= threshold] that lets index [j] stay in [order] after
    index [i] was kept. *)
Definition survives (threshold : Q) (boxes : list box) (i j : nat) : bool :=
  np_le (ovr (box_at boxes i) (box_at boxes j)) threshold.

(** The [while order.size > 0] loop; the result is [keep_indices]. *)
Equations? nms_loop (threshold : Q) (boxes : list box) (order : list nat)
  : list nat by wf (length order) lt :=
  nms_loop threshold boxes [] := [];
  nms_loop threshold boxes (i :: rest) :=
    i :: nms_loop threshold boxes (filter (survives threshold boxes i) rest).
Proof.
  clear nms_loop. simpl. apply Nat.lt_succ_r.
  induction rest as [|j rest IH]; simpl; [lia|].
  destruct (survives threshold boxes i j); simpl; lia.
Qed.

Section Nms.
Variable argsort : list Q -> list nat.

(** [order = scores.argsort()[::-1]] *)
Definition nms_order (proposals : list proposal) : list nat :=
  rev (argsort (map score proposals)).

Definition keep_indices (threshold : Q) (proposals : list proposal)
  : list nat :=
  nms_loop threshold (map bbox proposals) (nms_order proposals).

(** [nms] with the threshold as a parameter. *)
Definition nms_with (threshold : Q) (proposals : list proposal)
  : list proposal :=
  match proposals with
  | [] => []
  | p0 :: _ =>
      map (fun i => nth i proposals p0) (keep_indices threshold proposals)
  end.

Definition nms (proposals : list proposal) : list proposal :=
  nms_with NMS_THRESHOLD proposals.

End Nms.

(* ================================================================== *)
(** ** The tail of [main]: back to the coordinates of the original image *)
(* ================================================================== *)

(** A face after [face['bbox'] / ratio] and [face['kps'] / ratio]. *)
Record detection : Type := {
  det_bbox : npfloat * npfloat * npfloat * npfloat;
  det_score : Q;
  det_kps : list (npfloat * npfloat)
}.

Definition rescale (ratio : Q) (face : proposal) : detection :=
  let '(x1, y1, x2, y2) := bbox face in
  {| det_bbox := (np_div x1 ratio, np_div y1 ratio,
                  np_div x2 ratio, np_div y2 ratio);
     det_score := score face;
     det_kps := map (fun p => (np_div (fst p) ratio, np_div (snd p) ratio))
                    (kps face) |}.

(** [main] from the model outputs on: decode, suppress, rescale. *)
Definition postprocess (argsort : list Q -> list nat)
    (outputs : list tensor) (ratio : Q) : result (list detection) :=
  proposals <- decode_proposals outputs (snd TARGET_SHAPE) (fst TARGET_SHAPE) ;;
  Ok (map (rescale ratio) (nms argsort proposals)).

(* ================================================================== *)
(** ** Predicates and inputs used by the statements *)
(* ================================================================== *)

(** Equality of boxes as numbers. *)
Definition box_eq (b1 b2 : box) : Prop :=
  let '(a1, a2, a3, a4) := b1 in
  let '(c1, c2, c3, c4) := b2 in
  a1 == c1 /\ a2 == c2 /\ a3 == c3 /\ a4 == c4.

(** The intersection over union of the two boxes is a number, and it is at
    most [t].  Written out from the coordinates, not from the functions of
    the loop. *)
Definition iou_at_most (bi bj : box) (t : Q) : Prop :=
  let '(ix1, iy1, ix2, iy2) := bi in
  let '(jx1, jy1, jx2, jy2) := bj in
  let inter :=
    Qmax 0 (Qmin ix2 jx2 - Qmax ix1 jx1)
    * Qmax 0 (Qmin iy2 jy2 - Qmax iy1 jy1) in
  let union :=
    (ix2 - ix1) * (iy2 - iy1) + (jx2 - jx1) * (jy2 - jy1) - inter in
  ~ union == 0 /\ inter / union <= t.

(** What the decoder has done for anchor [a] of cell [(y, x)] once the
    proposal list is [ps]. *)
Definition emitted (scores boxes kps : tensor) (stride fw y x a : nat)
    (ps : list proposal) : Prop :=
  let idx := flat_index fw y x a in
  let s := of_nat stride in
  let cx := anchor_center x stride in
  let cy := anchor_center y stride in
  exists sc,
    nth_error scores idx = Some [sc]
    /\ (CONF_THRESHOLD <= sc ->
        exists l t r b krow dk,
          nth_error boxes idx = Some [l; t; r; b]
          /\ nth_error kps idx = Some krow
          /\ (forall k, (k < 5)%nat ->
                exists kx ky,
                  nth_error krow (k * 2) = Some kx
                  /\ nth_error krow (k * 2 + 1) = Some ky
                  /\ nth_error dk k = Some (cx + kx * s, cy + ky * s))
          /\ In {| bbox := (cx - l * s, cy - t * s, cx + r * s, cy + b * s);
                   score := sc; kps := dk |} ps).

(** What the decoder has done for the stride at index [i] once the
    proposal list is [ps]. *)
Definition stride_decoded (outputs : list tensor) (img_width img_height : Z)
    (i_stride : nat * nat) (ps : list proposal) : Prop :=
  let '(i, stride) := i_stride in
  exists scores boxes kps,
    nth_error outputs i = Some scores
    /\ nth_error outputs (i + 3) = Some boxes
    /\ nth_error outputs (i + 6) = Some kps
    /\ forall y x a,
         (y < feature_size img_height stride)%nat ->
         (x < feature_size img_width stride)%nat ->
         (a < 2)%nat ->
         emitted scores boxes kps stride (feature_size img_width stride)
                 y x a ps.

(** Division of every coordinate by the ratio, [coordinate / ratio]. *)
Definition divide_by (ratio : Q) (face : proposal) : detection :=
  let '(x1, y1, x2, y2) := bbox face in
  {| det_bbox := (Fin (x1 / ratio), Fin (y1 / ratio),
                  Fin (x2 / ratio), Fin (y2 / ratio));
     det_score := score face;
     det_kps := map (fun p => (Fin (fst p / ratio), Fin (snd p / ratio)))
                    (kps face) |}.

(** [n] rows, all [z] but row [k], which is [v]. *)
Definition one_hot {A} (n k : nat) (z v : A) : list A :=
  map (fun i => if (i =? k)%nat then v else z) (seq 0 n).

(** The outputs for a 640x640 canvas with one candidate: stride 8,
    cell (10, 10), anchor 0, score 0.9, box row (5, 5, 5, 5). *)
Definition e2e_scores8 : tensor := one_hot (80 * 80 * 2) 1620 [0] [9 # 10].
Definition e2e_boxes8 : tensor :=
  one_hot (80 * 80 * 2) 1620 [0; 0; 0; 0] [5; 5; 5; 5].
Definition e2e_kps8 : tensor := repeat (repeat 0 10) (80 * 80 * 2).
Definition e2e_scores16 : tensor := repeat [0] (40 * 40 * 2).
Definition e2e_boxes16 : tensor := repeat [0; 0; 0; 0] (40 * 40 * 2).
Definition e2e_kps16 : tensor := repeat (repeat 0 10) (40 * 40 * 2).
Definition e2e_scores32 : tensor := repeat [0] (20 * 20 * 2).
Definition e2e_boxes32 : tensor := repeat [0; 0; 0; 0] (20 * 20 * 2).
Definition e2e_kps32 : tensor := repeat (repeat 0 10) (20 * 20 * 2).

Definition e2e_outputs : list tensor :=
  [ e2e_scores8; e2e_scores16; e2e_scores32;
    e2e_boxes8; e2e_boxes16; e2e_boxes32;
    e2e_kps8; e2e_kps16; e2e_kps32 ].

(** The proposal decoded from [e2e_outputs]. *)
Definition e2e_proposal : proposal :=
  {| bbox := (anchor_center 10 8 - 5 * of_nat 8, anchor_center 10 8 - 5 * of_nat 8,
              anchor_center 10 8 + 5 * of_nat 8, anchor_center 10 8 + 5 * of_nat 8);
     score := 9 # 10;
     kps := repeat (anchor_center 10 8 + 0 * of_nat 8,
                    anchor_center 10 8 + 0 * of_nat 8) 5 |}.

(** The outputs for a 16x8 canvas (grids of 1x2, 1x1 and 1x1 cells); only
    anchor 1 of the stride-8 cell (0, 1) reaches the threshold. *)
Definition small_outputs : list tensor :=
  [ [[0]; [1 # 10]; [0]; [3 # 4]];
    [[0]; [0]];
    [[1 # 4]; [0]];
    [[0; 0; 0; 0]; [0; 0; 0; 0]; [0; 0; 0; 0]; [1 # 2; 1 # 4; 1; 3 # 4]];
    [[0; 0; 0; 0]; [0; 0; 0; 0]];
    [[0; 0; 0; 0]; [0; 0; 0; 0]];
    [repeat 0 10; repeat 0 10; repeat 0 10;
     [1 # 8; 1 # 8; 1 # 4; 1 # 8; 0; 0; 1 # 8; 1 # 4; 1 # 4; 1 # 4]];
    [repeat 0 10; repeat 0 10];
    [repeat 0 10; repeat 0 10] ].

(** Index [i] comes before index [j] in the stable ascending order. *)
Definition stable_before (scores : list Q) (i j : nat) : Prop :=
  score_at scores i < score_at scores j
  \/ (score_at scores i == score_at scores j /\ (i < j)%nat).

(** Two overlapping proposals with the same score. *)
Definition tie_first : proposal :=
  {| bbox := (0, 0, 10, 10); score := 9 # 10; kps := repeat (5, 5) 5 |}.
Definition tie_second : proposal :=
  {| bbox := (0, 0, 10, 11); score := 9 # 10; kps := repeat (5, 5) 5 |}.
Definition tie_input : list proposal := [tie_first; tie_second].

(** Two proposals whose boxes are the same single point, as decoded from
    all-zero distances at both anchors of the stride-8 cell (0, 0). *)
Definition point_first : proposal :=
  {| bbox := (4, 4, 4, 4); score := 9 # 10; kps := repeat (4, 4) 5 |}.
Definition point_second : proposal :=
  {| bbox := (4, 4, 4, 4); score := 8 # 10; kps := repeat (4, 4) 5 |}.

(** Four proposals in descending score: the second overlaps the first by
    1/3 and each of the last two by 11/20; the last two overlap the first by
    11/51 and each other by 1/10. *)
Definition chain_input : list proposal :=
  [ {| bbox := (0, 1, 20, 3); score := 9 # 10; kps := repeat (10, 1) 5 |};
    {| bbox := (0, 0, 20, 2); score := 8 # 10; kps := repeat (10, 1) 5 |};
    {| bbox := (0, 0, 11, 2); score := 7 # 10; kps := repeat (10, 1) 5 |};
    {| bbox := (9, 0, 20, 2); score := 6 # 10; kps := repeat (10, 1) 5 |} ].

(** Proposal [p] is what the loop body appends for anchor [a] of cell
    [(y, x)]. *)
Definition decoded_at (scores boxes landmarks : tensor)
    (stride fw y x a : nat) (p : proposal) : Prop :=
  let idx := flat_index fw y x a in
  let s := of_nat stride in
  let cx := anchor_center x stride in
  let cy := anchor_center y stride in
  exists l t r b krow,
    nth_error scores idx = Some [score p]
    /\ CONF_THRESHOLD <= score p
    /\ nth_error boxes idx = Some [l; t; r; b]
    /\ bbox p = (cx - l * s, cy - t * s, cx + r * s, cy + b * s)
    /\ nth_error landmarks idx = Some krow
    /\ length (kps p) = 5%nat
    /\ forall k, (k < 5)%nat ->
         exists kx ky,
           nth_error krow (k * 2) = Some kx
           /\ nth_error krow (k * 2 + 1) = Some ky
           /\ nth_error (kps p) k = Some (cx + kx * s, cy + ky * s).

(** Proposal [p] is what the decoder appends for some stride, cell and
    anchor of the grids of a [w] by [h] canvas. *)
Definition decoded_from (outputs : list tensor) (w h : Z) (p : proposal)
  : Prop :=
  exists i stride y x a scores boxes landmarks,
    nth_error strides i = Some stride
    /\ (y < feature_size h stride)%nat
    /\ (x < feature_size w stride)%nat
    /\ (a < 2)%nat
    /\ nth_error outputs i = Some scores
    /\ nth_error outputs (i + 3) = Some boxes
    /\ nth_error outputs (i + 6) = Some landmarks
    /\ decoded_at scores boxes landmarks stride (feature_size w stride) y x a p.

(** [t'] is [t] followed by further rows. *)
Definition tensor_prefix (t t' : tensor) : Prop := exists e, t' = t ++ e.

(** [outputs'] has every tensor of [outputs] at the same index, possibly
    with further rows, and possibly further tensors. *)
Definition outputs_extend (outputs outputs' : list tensor) : Prop :=
  forall i t, nth_error outputs i = Some t ->
    exists t', nth_error outputs' i = Some t' /\ tensor_prefix t t'.

(** Outputs for a 16x8 canvas whose scores are all below the threshold and
    whose box and landmark tensors have no rows at all. *)
Definition quiet_outputs : list tensor :=
  [ [[0]; [1 # 10]; [0]; [1 # 4]]; [[0]; [0]]; [[1 # 4]; [0]];
    []; []; []; []; []; [] ].

(** A box with a positive extent on both axes. *)
Definition proper (b : box) : Prop :=
  let '(x1, y1, x2, y2) := b in x1 < x2 /\ y1 < y2.

(** What [main] prints after the inference call, with the faces it goes on
    to draw. *)
Inductive report : Type :=
| Found0Faces
| Found0FacesAfterNMS
| FoundFaces (n : nat) (faces : list detection).

(** [main] from the model outputs on, with its two early returns. *)
Definition main_after_inference (argsort : list Q -> list nat)
    (outputs : list tensor) (ratio : Q) : result report :=
  proposals <- decode_proposals outputs (snd TARGET_SHAPE) (fst TARGET_SHAPE) ;;
  match proposals with
  | [] => Ok Found0Faces
  | _ :: _ =>
      let final_faces := nms argsort proposals in
      match final_faces with
      | [] => Ok Found0FacesAfterNMS
      | _ :: _ =>
          Ok (FoundFaces (length final_faces)
                (map (rescale ratio) final_faces))
      end
  end.

(** Three proposals on pairwise disjoint boxes, in ascending score. *)
Definition apart_input : list proposal :=
  [ {| bbox := (0, 0, 10, 10); score := 6 # 10; kps := repeat (5, 5) 5 |};
    {| bbox := (20, 0, 30, 10); score := 7 # 10; kps := repeat (25, 5) 5 |};
    {| bbox := (0, 20, 10, 30); score := 8 # 10; kps := repeat (5, 25) 5 |} ].

(* ================================================================== *)
(** * Properties *)
(* ================================================================== *)

(** ** Numbers *)

Lemma py_min_Qmin a b : py_min a b == Qmin a b.
Proof.
  unfold py_min. destruct (Qlt_le_dec b a) as [H|H].
  - symmetry. apply Q.min_r. apply Qlt_le_weak, H.
  - symmetry. apply Q.min_l. exact H.
Qed.

Lemma py_min_le_l a b : py_min a b <= a.
Proof. rewrite py_min_Qmin. apply Q.le_min_l. Qed.

Lemma py_min_le_r a b : py_min a b <= b.
Proof. rewrite py_min_Qmin. apply Q.le_min_r. Qed.

Lemma py_int_floor q : 0 <= q -> py_int q = Qfloor q.
Proof.
  destruct q as [n d]. unfold Qle, py_int, Qfloor. simpl. intros H.
  apply Z.quot_div_nonneg; lia.
Qed.

Lemma py_truediv_ok a b : b <> 0%Z -> py_truediv a b = Ok (inject_Z a / inject_Z b).
Proof. intros H. unfold py_truediv. destruct (Z.eqb_spec b 0); [contradiction|reflexivity]. Qed.

Lemma inject_Z_pos (n : Z) : (0 < n)%Z -> 0 < inject_Z n.
Proof. intros H. unfold Qlt. simpl. lia. Qed.

Lemma inject_Z_nonneg (n : Z) : (0 <= n)%Z -> 0 <= inject_Z n.
Proof. intros H. unfold Qle. simpl. lia. Qed.

Lemma scaled_le_target (n t : Z) (q : Q) :
  (0 < n)%Z -> q <= inject_Z t / inject_Z n -> inject_Z n * q <= inject_Z t.
Proof.
  intros Hn Hq.
  assert (Hpos : 0 < inject_Z n) by (apply inject_Z_pos; exact Hn).
  apply Qle_trans with (inject_Z n * (inject_Z t / inject_Z n)).
  - apply Qmult_le_l; assumption.
  - rewrite Qmult_div_r; [apply Qle_refl|].
    intro E. rewrite E in Hpos. discriminate.
Qed.

Lemma floor_fits (n t : Z) (q : Q) :
  (0 < n)%Z -> 0 <= q -> q <= inject_Z t / inject_Z n ->
  (0 <= py_int (inject_Z n * q) <= t)%Z.
Proof.
  intros Hn H0 Hq.
  assert (Hpos : 0 <= inject_Z n) by (apply inject_Z_nonneg; lia).
  assert (Hprod : 0 <= inject_Z n * q) by (apply Qmult_le_0_compat; assumption).
  rewrite py_int_floor by exact Hprod. split.
  - rewrite <- (Qfloor_Z 0). apply Qfloor_resp_le. exact Hprod.
  - rewrite <- (Qfloor_Z t). apply Qfloor_resp_le.
    apply scaled_le_target; assumption.
Qed.

Lemma quotient_pos (t n : Z) : (0 < t)%Z -> (0 < n)%Z -> 0 < inject_Z t / inject_Z n.
Proof.
  intros Ht Hn. apply Qlt_shift_div_l.
  - apply inject_Z_pos. exact Hn.
  - rewrite Qmult_0_l. apply inject_Z_pos. exact Ht.
Qed.

Lemma py_min_pos a b : 0 < a -> 0 < b -> 0 < py_min a b.
Proof. intros Ha Hb. unfold py_min. destruct (Qlt_le_dec b a); assumption. Qed.

Lemma np_div_finite a b : ~ b == 0 -> np_div a b = Fin (a / b).
Proof.
  intros H. unfold np_div. destruct (Qeq_bool b 0) eqn:E; [|reflexivity].
  apply Qeq_bool_eq in E. contradiction.
Qed.

(** ** Letterbox *)

Lemma py_int_py_min_floor (n : Z) (a b : Q) :
  (0 < n)%Z -> 0 < a -> 0 < b ->
  py_int (inject_Z n * py_min a b) = Qfloor (inject_Z n * Qmin a b).
Proof.
  intros Hn Ha Hb.
  assert (Hm : 0 <= py_min a b) by (apply Qlt_le_weak, py_min_pos; assumption).
  rewrite py_int_floor.
  - apply Qfloor_comp. rewrite py_min_Qmin. reflexivity.
  - apply Qmult_le_0_compat; [apply inject_Z_nonneg; lia | exact Hm].
Qed.

(** The three array calls of the letterbox once the sizes are known. *)
Lemma resize_and_paste (target_height target_width nw nh : Z) :
  (0 <= nw <= target_width)%Z -> (0 <= nh <= target_height)%Z ->
  (resized_img <- cv2_resize nw nh ;;
   blank <- np_full target_height target_width 114 ;;
   paste_topleft blank target_height target_width resized_img)
  = if ((0 <? nw)%Z && (0 <? nh)%Z)%bool
    then Ok (fun y x =>
               if ((0 <=? y)%Z && (y <? Z.min nh target_height)%Z
                   && (0 <=? x)%Z && (x <? Z.min nw target_width)%Z)%bool
               then Some (Resized y x)
               else if ((0 <=? y)%Z && (y <? target_height)%Z
                        && (0 <=? x)%Z && (x <? target_width)%Z)%bool
                    then Some (Fill 114) else None)
    else Raise CvError.
Proof.
  intros Hw Hh. unfold cv2_resize.
  destruct ((0 <? nw)%Z && (0 <? nh)%Z)%bool; [|reflexivity].
  cbn [bind]. unfold np_full.
  replace ((0 <=? target_height)%Z && (0 <=? target_width)%Z)%bool with true
    by (symmetry; apply andb_true_intro; split; apply Z.leb_le; lia).
  cbn [bind]. unfold paste_topleft.
  replace (nh <=? target_height)%Z with true by (symmetry; apply Z.leb_le; lia).
  replace (nw <=? target_width)%Z with true by (symmetry; apply Z.leb_le; lia).
  reflexivity.
Qed.

Lemma pasted_cell (target_height target_width nw nh y x : Z) :
  (0 <= nw <= target_width)%Z -> (0 <= nh <= target_height)%Z ->
  (0 <= y < target_height)%Z -> (0 <= x < target_width)%Z ->
  (if ((0 <=? y)%Z && (y <? Z.min nh target_height)%Z
       && (0 <=? x)%Z && (x <? Z.min nw target_width)%Z)%bool
   then Some (Resized y x)
   else if ((0 <=? y)%Z && (y <? target_height)%Z
            && (0 <=? x)%Z && (x <? target_width)%Z)%bool
        then Some (Fill 114) else None)
  = Some (if ((y <? nh)%Z && (x <? nw)%Z)%bool then Resized y x else Fill 114).
Proof.
  intros Hw Hh Hy Hx.
  rewrite (Z.min_l nh) by lia. rewrite (Z.min_l nw) by lia.
  replace (0 <=? y)%Z with true by (symmetry; apply Z.leb_le; lia).
  replace (0 <=? x)%Z with true by (symmetry; apply Z.leb_le; lia).
  replace (y <? target_height)%Z with true by (symmetry; apply Z.ltb_lt; lia).
  replace (x <? target_width)%Z with true by (symmetry; apply Z.ltb_lt; lia).
  cbn [andb].
  destruct (y <? nh)%Z, (x <? nw)%Z; reflexivity.
Qed.

(** The letterbox of an image of positive width and height on a positive
    target: the sizes it computes, and what it returns. *)
Lemma letterbox_cases (img : image) (target_height target_width : Z) :
  (0 < img_w img)%N -> (0 < img_h img)%N ->
  (0 < target_height)%Z -> (0 < target_width)%Z ->
  let w := inject_Z (Z.of_N (img_w img)) in
  let h := inject_Z (Z.of_N (img_h img)) in
  let rt := Qmin (inject_Z target_width / w) (inject_Z target_height / h) in
  let nw := Qfloor (w * rt) in
  let nh := Qfloor (h * rt) in
  (0 <= nw <= target_width)%Z /\ (0 <= nh <= target_height)%Z
  /\ ((1 <= nw)%Z -> (1 <= nh)%Z ->
      exists r,
        preprocess_image_topleft img target_height target_width = Ok r
        /\ ratio r == rt /\ new_w r = nw /\ new_h r = nh
        /\ canvas_w r = target_width /\ canvas_h r = target_height
        /\ forall y x, (0 <= y < target_height)%Z -> (0 <= x < target_width)%Z ->
             canvas r y x
             = Some (if ((y <? nh)%Z && (x <? nw)%Z)%bool
                     then Resized y x else Fill 114))
  /\ ((nw = 0 \/ nh = 0)%Z ->
      preprocess_image_topleft img target_height target_width = Raise CvError).
Proof.
  intros Hw Hh Hth Htw w h rt nw nh.
  set (wz := Z.of_N (img_w img)). set (hz := Z.of_N (img_h img)).
  assert (Hwz : (0 < wz)%Z) by (subst wz; lia).
  assert (Hhz : (0 < hz)%Z) by (subst hz; lia).
  pose proof (quotient_pos target_width wz Htw Hwz) as Hqw.
  pose proof (quotient_pos target_height hz Hth Hhz) as Hqh.
  fold w in Hqw. fold h in Hqh.
  assert (Hrt : 0 <= rt).
  { unfold rt. rewrite <- py_min_Qmin. apply Qlt_le_weak, py_min_pos; assumption. }
  assert (Hnw : (0 <= nw <= target_width)%Z).
  { unfold nw. rewrite <- (py_int_floor (w * rt)).
    - apply floor_fits; [exact Hwz | exact Hrt | apply Q.le_min_l].
    - apply Qmult_le_0_compat; [apply inject_Z_nonneg; lia | exact Hrt]. }
  assert (Hnh : (0 <= nh <= target_height)%Z).
  { unfold nh. rewrite <- (py_int_floor (h * rt)).
    - apply floor_fits; [exact Hhz | exact Hrt | apply Q.le_min_r].
    - apply Qmult_le_0_compat; [apply inject_Z_nonneg; lia | exact Hrt]. }
  assert (Hrun : forall k : grid_of_cells -> result letterboxed,
     (canvas <- (resized_img <- cv2_resize nw nh ;;
                 blank <- np_full target_height target_width 114 ;;
                 paste_topleft blank target_height target_width resized_img) ;;
      k canvas)
     = (resized_img <- cv2_resize nw nh ;;
        blank <- np_full target_height target_width 114 ;;
        canvas <- paste_topleft blank target_height target_width resized_img ;;
        k canvas)).
  { intros k. destruct (cv2_resize nw nh); cbn [bind]; [|reflexivity].
    destruct (np_full target_height target_width 114); reflexivity. }
  assert (Hpre : preprocess_image_topleft img target_height target_width
    = (canvas <- (resized_img <- cv2_resize nw nh ;;
                  blank <- np_full target_height target_width 114 ;;
                  paste_topleft blank target_height target_width resized_img) ;;
       Ok {| canvas_h := target_height; canvas_w := target_width;
             new_w := nw; new_h := nh;
             ratio := py_min (inject_Z target_width / w)
                             (inject_Z target_height / h);
             canvas := canvas |})).
  { rewrite Hrun. unfold preprocess_image_topleft. fold wz hz.
    rewrite (py_truediv_ok target_width wz) by lia.
    rewrite (py_truediv_ok target_height hz) by lia.
    cbn [bind]. fold w h.
    rewrite (py_int_py_min_floor wz _ _ Hwz Hqw Hqh).
    rewrite (py_int_py_min_floor hz _ _ Hhz Hqw Hqh).
    reflexivity. }
  rewrite Hpre, (resize_and_paste _ _ _ _ Hnw Hnh).
  split; [exact Hnw|]. split; [exact Hnh|]. split.
  - intros H1w H1h.
    replace (0 <? nw)%Z with true by (symmetry; apply Z.ltb_lt; lia).
    replace (0 <? nh)%Z with true by (symmetry; apply Z.ltb_lt; lia).
    cbn [andb bind]. eexists. split; [reflexivity|].
    cbn [ratio new_w new_h canvas_w canvas_h canvas].
    split; [apply py_min_Qmin|]. repeat split.
    intros y x Hy Hx. apply pasted_cell; assumption.
  - intros [H0|H0]; rewrite H0.
    + reflexivity.
    + rewrite andb_false_r. reflexivity.
Qed.






(** ** Rescaling *)

Lemma rescale_divide_by ratio face :
  ~ ratio == 0 -> rescale ratio face = divide_by ratio face.
Proof.
  intros H. unfold rescale, divide_by.
  destruct (bbox face) as [[[x1 y1] x2] y2].
  rewrite !np_div_finite by exact H. f_equal.
  apply map_ext. intros p. rewrite !np_div_finite by exact H. reflexivity.
Qed.

(** C8.  With a non-zero ratio, the pipeline returns every kept proposal
    with each box and landmark coordinate divided by the ratio and nothing
    subtracted; with ratio 1/2 the box (100, 100, 200, 200) becomes
    (200, 200, 400, 400). *)
Theorem postprocess_divides_by_ratio (argsort : list Q -> list nat)
    (outputs : list tensor) (ratio : Q) :
  ~ ratio == 0 ->
  postprocess argsort outputs ratio
  = (proposals <- decode_proposals outputs 640 640 ;;
     Ok (map (divide_by ratio) (nms argsort proposals)))
  /\ forall s k,
       det_bbox (rescale (1 # 2)
                   {| bbox := (100, 100, 200, 200); score := s; kps := k |})
       = (Fin 200, Fin 200, Fin 400, Fin 400).
Proof.
  intros H. split; [|reflexivity].
  unfold postprocess. cbn [TARGET_SHAPE fst snd].
  destruct (decode_proposals outputs 640 640) as [ps|e]; [|reflexivity].
  cbn [bind]. f_equal. apply map_ext. intros face.
  apply rescale_divide_by. exact H.
Qed.

Lemma postprocess_divides_by_ratio_witness :
  postprocess stable_argsort e2e_outputs (1 # 2)
  = (proposals <- decode_proposals e2e_outputs 640 640 ;;
     Ok (map (divide_by (1 # 2)) (nms stable_argsort proposals)))
  /\ forall s k,
       det_bbox (rescale (1 # 2)
                   {| bbox := (100, 100, 200, 200); score := s; kps := k |})
       = (Fin 200, Fin 200, Fin 400, Fin 400).
Proof.
  apply (postprocess_divides_by_ratio stable_argsort e2e_outputs). discriminate.
Defined.

(** ** Loops *)

Section ForEach.
Context {A T : Type}.
Variable body : A -> list T -> result (list T).
Variable Inv : A -> list T -> Prop.
Hypothesis body_extends :
  forall x s s', body x s = Ok s' -> exists l, s' = s ++ l.
Hypothesis Inv_extends : forall x s l, Inv x s -> Inv x (s ++ l).
Hypothesis body_Inv : forall x s s', body x s = Ok s' -> Inv x s'.

Lemma for_each_extends xs : forall s r,
  for_each xs body s = Ok r -> exists l, r = s ++ l.
Proof.
  induction xs as [|x xs IH]; simpl; intros s r H.
  - injection H as <-. exists []. symmetry. apply app_nil_r.
  - destruct (body x s) as [s'|e] eqn:E; simpl in H; [|discriminate].
    destruct (body_extends _ _ _ E) as [l1 ->].
    destruct (IH _ _ H) as [l2 ->].
    exists (l1 ++ l2). symmetry. apply app_assoc.
Qed.

Lemma for_each_all xs : forall s r,
  for_each xs body s = Ok r -> forall x, In x xs -> Inv x r.
Proof.
  induction xs as [|x xs IH]; simpl; intros s r H y Hy; [contradiction|].
  destruct (body x s) as [s'|e] eqn:E; simpl in H; [|discriminate].
  destruct Hy as [<- | Hy].
  - destruct (for_each_extends _ _ _ H) as [l ->].
    apply Inv_extends. eapply body_Inv. exact E.
  - eapply IH; eassumption.
Qed.
End ForEach.

Lemma for_each_app {A St} (body : A -> St -> result St) xs ys s :
  for_each (xs ++ ys) body s = (s' <- for_each xs body s ;; for_each ys body s').
Proof.
  revert s. induction xs as [|x xs IH]; intros s; simpl; [reflexivity|].
  destruct (body x s); simpl; [apply IH | reflexivity].
Qed.

Lemma for_each_skip {A St} (body : A -> St -> result St) xs :
  (forall x, In x xs -> forall s, body x s = Ok s) ->
  forall s, for_each xs body s = Ok s.
Proof.
  induction xs as [|x xs IH]; intros H s; simpl; [reflexivity|].
  rewrite (H x) by (left; reflexivity). simpl.
  apply IH. intros y Hy. apply H. right. exact Hy.
Qed.

(** A loop over [range n] whose body leaves the state alone except at [k]. *)
Lemma for_each_range_hit {St} (body : nat -> St -> result St) n k :
  (k < n)%nat ->
  (forall x, (x < n)%nat -> x <> k -> forall s, body x s = Ok s) ->
  forall s, for_each (range n) body s = body k s.
Proof.
  intros Hk Hskip s. unfold range.
  replace n with (k + S (n - k - 1))%nat by lia.
  rewrite seq_app, for_each_app. simpl.
  rewrite for_each_skip.
  - simpl. destruct (body k s) as [s'|e]; simpl; [|reflexivity].
    apply for_each_skip. intros x Hx. apply in_seq in Hx.
    apply Hskip; lia.
  - intros x Hx. apply in_seq in Hx. apply Hskip; lia.
Qed.

Lemma for_each_range_skip {St} (body : nat -> St -> result St) n :
  (forall x, (x < n)%nat -> forall s, body x s = Ok s) ->
  forall s, for_each (range n) body s = Ok s.
Proof.
  intros H. apply for_each_skip. intros x Hx. apply in_seq in Hx.
  apply H. lia.
Qed.

Lemma bind_Ok_eq {A B} (m : result A) (k : A -> result B) a r :
  m = Ok a -> k a = r -> bind m k = r.
Proof. intros -> <-. reflexivity. Qed.

(** ** Decoder *)

Lemma getitem_Ok {A} (xs : list A) i a :
  getitem xs i = Ok a -> nth_error xs i = Some a.
Proof. unfold getitem. destruct (nth_error xs i); congruence. Qed.

Lemma scalar_Ok row s : scalar row = Ok s -> row = [s].
Proof. destruct row as [|a [|b row]]; simpl; congruence. Qed.

Lemma unpack4_scaled row (s l t r b : Q) :
  unpack4 (map (fun v => v * s) row) = Ok (l, t, r, b) ->
  exists l0 t0 r0 b0,
    row = [l0; t0; r0; b0]
    /\ l = l0 * s /\ t = t0 * s /\ r = r0 * s /\ b = b0 * s.
Proof.
  destruct row as [|l0 [|t0 [|r0 [|b0 [|c row]]]]]; simpl; try discriminate.
  intros H. injection H as <- <- <- <-. exists l0, t0, r0, b0. tauto.
Qed.

Lemma map_result_nth {A B} (f : A -> result B) xs : forall ys,
  map_result f xs = Ok ys ->
  forall k x, nth_error xs k = Some x ->
    exists y, f x = Ok y /\ nth_error ys k = Some y.
Proof.
  induction xs as [|a xs IH]; simpl; intros ys H k x Hk.
  - destruct k; discriminate.
  - destruct (f a) as [b|e] eqn:Ea; simpl in H; [|discriminate].
    destruct (map_result f xs) as [bs|e] eqn:Ebs; simpl in H; [|discriminate].
    injection H as <-. destruct k as [|k]; simpl in *.
    + injection Hk as <-. exists b. tauto.
    + eapply IH; [reflexivity | exact Hk].
Qed.

Ltac destruct_map_result dk E :=
  match goal with
  | |- context [map_result ?f ?xs] =>
      destruct (map_result f xs) as [dk|] eqn:E
  end.

Lemma emitted_extends scores boxes kps stride fw y x a ps l :
  emitted scores boxes kps stride fw y x a ps ->
  emitted scores boxes kps stride fw y x a (ps ++ l).
Proof.
  intros (sc & Hsc & H). exists sc. split; [exact Hsc|].
  intros Hc. destruct (H Hc) as (l0 & t & r & b & krow & dk & Hb & Hk & Hd & Hin).
  exists l0, t, r, b, krow, dk. repeat split; try assumption.
  apply in_or_app. left. exact Hin.
Qed.

Lemma decode_anchor_extends scores boxes kps stride fw y x a ps ps' :
  decode_anchor scores boxes kps stride fw y x a ps = Ok ps' ->
  exists l, ps' = ps ++ l.
Proof.
  unfold decode_anchor.
  destruct (getitem scores _) as [row|]; cbn [bind]; [|discriminate].
  destruct (scalar row) as [sc|]; cbn [bind]; [|discriminate].
  destruct (Qlt_le_dec sc CONF_THRESHOLD).
  - intros H. injection H as <-. exists []. symmetry. apply app_nil_r.
  - destruct (getitem boxes _) as [bp|]; cbn [bind]; [|discriminate].
    destruct (unpack4 _) as [[[[l t] r] b]|]; cbn [bind]; [|discriminate].
    destruct (getitem kps _) as [kp|]; cbn [bind]; [|discriminate].
    destruct_map_result dk Edk; cbn [bind]; [|discriminate].
    intros H. injection H as <-. eexists. reflexivity.
Qed.

Lemma decode_anchor_emitted scores boxes kps stride fw y x a ps ps' :
  decode_anchor scores boxes kps stride fw y x a ps = Ok ps' ->
  emitted scores boxes kps stride fw y x a ps'.
Proof.
  unfold decode_anchor, emitted.
  destruct (getitem scores _) as [row|] eqn:Erow; cbn [bind]; [|discriminate].
  destruct (scalar row) as [sc|] eqn:Esc; cbn [bind]; [|discriminate].
  apply getitem_Ok in Erow. apply scalar_Ok in Esc. subst row.
  destruct (Qlt_le_dec sc CONF_THRESHOLD) as [Hlt|Hle].
  - intros _. exists sc. split; [exact Erow|].
    intros Hc. exfalso. exact (Qlt_not_le _ _ Hlt Hc).
  - destruct (getitem boxes _) as [bp|] eqn:Ebp; cbn [bind]; [|discriminate].
    destruct (unpack4 _) as [[[[l t] r] b]|] eqn:Eu; cbn [bind]; [|discriminate].
    destruct (getitem kps _) as [kp|] eqn:Ekp; cbn [bind]; [|discriminate].
    destruct_map_result dk Edk; cbn [bind]; [|discriminate].
    intros H. injection H as <-.
    apply getitem_Ok in Ebp, Ekp.
    apply unpack4_scaled in Eu.
    destruct Eu as (l0 & t0 & r0 & b0 & -> & -> & -> & -> & ->).
    exists sc. split; [exact Erow|]. intros _.
    exists l0, t0, r0, b0, kp, dk. repeat split; try assumption.
    + intros k Hk.
      assert (Hs : nth_error (range 5) k = Some k).
      { unfold range. rewrite nth_error_seq.
        destruct (Nat.ltb_spec k 5); [reflexivity | lia]. }
      destruct (map_result_nth _ _ _ Edk _ _ Hs) as (p & Hp & Hn).
      destruct (getitem kp (k * 2)) as [kx|] eqn:Ex; cbn [bind] in Hp; [|discriminate].
      destruct (getitem kp (k * 2 + 1)) as [ky|] eqn:Ey; cbn [bind] in Hp; [|discriminate].
      injection Hp as <-. apply getitem_Ok in Ex, Ey.
      exists kx, ky. tauto.
    + apply in_or_app. right. left. reflexivity.
Qed.

Section Grid.
Variables scores boxes kps : tensor.
Variables stride fh fw : nat.

Let anchors (y x : nat) :=
  for_each (range 2) (decode_anchor scores boxes kps stride fw y x).
Let row (y : nat) := for_each (range fw) (anchors y).
Let grid := for_each (range fh) row.

Lemma anchors_extends y x ps ps' :
  anchors y x ps = Ok ps' -> exists l, ps' = ps ++ l.
Proof.
  apply for_each_extends. intros a s s'. apply decode_anchor_extends.
Qed.

Lemma anchors_emitted y x ps ps' :
  anchors y x ps = Ok ps' ->
  forall a, (a < 2)%nat -> emitted scores boxes kps stride fw y x a ps'.
Proof.
  intros H a Ha.
  apply (for_each_all (decode_anchor scores boxes kps stride fw y x)
           (emitted scores boxes kps stride fw y x)) with (range 2) ps.
  - intros a0 s s'. apply decode_anchor_extends.
  - intros a0 s l. apply emitted_extends.
  - intros a0 s s'. apply decode_anchor_emitted.
  - exact H.
  - apply in_seq. lia.
Qed.

Lemma row_extends y ps ps' : row y ps = Ok ps' -> exists l, ps' = ps ++ l.
Proof. apply for_each_extends. intros x s s'. apply anchors_extends. Qed.

Lemma row_emitted y ps ps' :
  row y ps = Ok ps' ->
  forall x a, (x < fw)%nat -> (a < 2)%nat ->
    emitted scores boxes kps stride fw y x a ps'.
Proof.
  intros H x a Hx Ha.
  apply (for_each_all (anchors y)
           (fun x ps => forall a, (a < 2)%nat ->
              emitted scores boxes kps stride fw y x a ps))
    with (range fw) ps; try assumption.
  - intros x0 s s'. apply anchors_extends.
  - intros x0 s l Hs a0 Ha0. apply emitted_extends, Hs, Ha0.
  - intros x0 s s'. apply anchors_emitted.
  - apply in_seq. lia.
Qed.

Lemma grid_extends ps ps' : grid ps = Ok ps' -> exists l, ps' = ps ++ l.
Proof. apply for_each_extends. intros y s s'. apply row_extends. Qed.

Lemma grid_emitted ps ps' :
  grid ps = Ok ps' ->
  forall y x a, (y < fh)%nat -> (x < fw)%nat -> (a < 2)%nat ->
    emitted scores boxes kps stride fw y x a ps'.
Proof.
  intros H y x a Hy Hx Ha.
  apply (for_each_all row
           (fun y ps => forall x a, (x < fw)%nat -> (a < 2)%nat ->
              emitted scores boxes kps stride fw y x a ps))
    with (range fh) ps; try assumption.
  - intros y0 s s'. apply row_extends.
  - intros y0 s l Hs x0 a0 Hx0 Ha0. apply emitted_extends, Hs; assumption.
  - intros y0 s s'. apply row_emitted.
  - apply in_seq. lia.
Qed.
End Grid.

Lemma decode_stride_extends outputs w h i_stride ps ps' :
  decode_stride outputs w h i_stride ps = Ok ps' -> exists l, ps' = ps ++ l.
Proof.
  destruct i_stride as [i stride]. unfold decode_stride.
  destruct (getitem outputs i) as [sc|]; cbn [bind]; [|discriminate].
  destruct (getitem outputs (i + 3)) as [bx|]; cbn [bind]; [|discriminate].
  destruct (getitem outputs (i + 6)) as [kp|]; cbn [bind]; [|discriminate].
  apply grid_extends.
Qed.

Lemma decode_stride_decoded outputs w h i_stride ps ps' :
  decode_stride outputs w h i_stride ps = Ok ps' ->
  stride_decoded outputs w h i_stride ps'.
Proof.
  destruct i_stride as [i stride]. unfold decode_stride, stride_decoded.
  destruct (getitem outputs i) as [sc|] eqn:E1; cbn [bind]; [|discriminate].
  destruct (getitem outputs (i + 3)) as [bx|] eqn:E2; cbn [bind]; [|discriminate].
  destruct (getitem outputs (i + 6)) as [kp|] eqn:E3; cbn [bind]; [|discriminate].
  intros H. exists sc, bx, kp.
  apply getitem_Ok in E1, E2, E3. repeat split; try assumption.
  apply grid_emitted with ps. exact H.
Qed.

(** The layout in the terms of the decoder's own helpers. *)
Lemma decode_strides_decoded (outputs : list tensor) (img_width img_height : Z)
    (ps : list proposal) :
  decode_proposals outputs img_width img_height = Ok ps ->
  forall i stride, nth_error strides i = Some stride ->
    stride_decoded outputs img_width img_height (i, stride) ps.
Proof.
  intros H i stride Hi.
  apply (for_each_all (decode_stride outputs img_width img_height)
           (stride_decoded outputs img_width img_height))
    with (enumerate strides) []; try assumption.
  - intros x s s'. apply decode_stride_extends.
  - intros [i0 s0] s l (sc & bx & kp & H1 & H2 & H3 & Hc).
    exists sc, bx, kp. repeat split; try assumption.
    intros y x a Hy Hx Ha. apply emitted_extends, Hc; assumption.
  - intros x s s'. apply decode_stride_decoded.
  - destruct i as [|[|[|i]]]; simpl in Hi;
      [injection Hi as <-; simpl; tauto .. | destruct i; discriminate].
Qed.

(** C1.  When the decoder returns [ps], then for every stride [s] at index
    [i] of [8, 16, 32], with the score, box and landmark tensors at outputs
    [i], [i + 3] and [i + 6], every cell [(y, x)] with
    [y < ceil(height / s)] and [x < fw = ceil(width / s)] and every anchor
    [a < 2], the score row at [idx = y * fw * 2 + x * 2 + a] was read, and
    when the score is not below the threshold the box row [(l, t, r, b)] and
    the landmark row at [idx] were read and [ps] holds the proposal with box
    [(cx - l * s, cy - t * s, cx + r * s, cy + b * s)], where
    [cx = (x + 1/2) * s] and [cy = (y + 1/2) * s], and with the five
    landmarks [(cx + kx * s, cy + ky * s)]. *)
Theorem decode_layout (outputs : list tensor) (img_width img_height : Z)
    (ps : list proposal) :
  decode_proposals outputs img_width img_height = Ok ps ->
  forall i s, nth_error [8; 16; 32]%nat i = Some s ->
    exists scores boxes landmarks,
      nth_error outputs i = Some scores
      /\ nth_error outputs (i + 3) = Some boxes
      /\ nth_error outputs (i + 6) = Some landmarks
      /\ forall y x a,
           let sq := inject_Z (Z.of_nat s) in
           let fh := Z.to_nat (Qceiling (inject_Z img_height / sq)) in
           let fw := Z.to_nat (Qceiling (inject_Z img_width / sq)) in
           (y < fh)%nat -> (x < fw)%nat -> (a < 2)%nat ->
           let idx := (y * fw * 2 + x * 2 + a)%nat in
           let cx := (inject_Z (Z.of_nat x) + (1 # 2)) * sq in
           let cy := (inject_Z (Z.of_nat y) + (1 # 2)) * sq in
           exists sc,
             nth_error scores idx = Some [sc]
             /\ (CONF_THRESHOLD <= sc ->
                 exists l t r b krow dk,
                   nth_error boxes idx = Some [l; t; r; b]
                   /\ nth_error landmarks idx = Some krow
                   /\ (forall k, (k < 5)%nat ->
                         exists kx ky,
                           nth_error krow (k * 2) = Some kx
                           /\ nth_error krow (k * 2 + 1) = Some ky
                           /\ nth_error dk k
                              = Some (cx + kx * sq, cy + ky * sq))
                   /\ In {| bbox := (cx - l * sq, cy - t * sq,
                                     cx + r * sq, cy + b * sq);
                            score := sc; kps := dk |} ps).
Proof.
  intros H i s Hi.
  destruct (decode_strides_decoded outputs img_width img_height ps H i s Hi)
    as (scores & boxes & landmarks & H1 & H2 & H3 & Hc).
  exists scores, boxes, landmarks.
  split; [exact H1|]. split; [exact H2|]. split; [exact H3|].
  intros y x a sq fh fw Hy Hx Ha idx cx cy.
  exact (Hc y x a Hy Hx Ha).
Qed.

Lemma decode_layout_witness :
  exists ps p,
    decode_proposals small_outputs 16 8 = Ok ps
    /\ In p ps
    /\ box_eq (bbox p) (8, 2, 20, 10)
    /\ score p = 3 # 4.
Proof.
  assert (Hd : decode_proposals small_outputs 16 8
               = Ok (match decode_proposals small_outputs 16 8 with
                     | Ok ps => ps
                     | Raise _ => []
                     end)) by (vm_compute; reflexivity).
  destruct (decode_layout small_outputs 16 8 _ Hd 0%nat 8%nat eq_refl)
    as (scores & boxes & landmarks & H1 & H2 & H3 & Hc).
  injection H1 as <-. injection H2 as <-. injection H3 as <-.
  destruct (Hc 0%nat 1%nat 1%nat) as (sc & Hsc & Hin);
    [vm_compute; lia | vm_compute; lia | lia |].
  vm_compute in Hsc. injection Hsc as <-.
  destruct Hin as (l & t & r & b & krow & dk & Hb & _ & _ & Hin);
    [discriminate|].
  vm_compute in Hb. injection Hb as <- <- <- <-.
  eexists. eexists. split; [exact Hd|]. split; [exact Hin|].
  split; [|reflexivity]. repeat split.
Defined.

Lemma nth_error_one_hot {A} n k (z v : A) i :
  (i < n)%nat ->
  nth_error (one_hot n k z v) i = Some (if (i =? k)%nat then v else z).
Proof.
  intros H. unfold one_hot.
  rewrite nth_error_map, nth_error_seq.
  destruct (Nat.ltb_spec i n); [reflexivity | lia].
Qed.

Lemma decode_anchor_below scores boxes kps stride fw y x a sc ps :
  nth_error scores (flat_index fw y x a) = Some [sc] ->
  sc < CONF_THRESHOLD ->
  decode_anchor scores boxes kps stride fw y x a ps = Ok ps.
Proof.
  intros H Hlt. unfold decode_anchor, getitem. rewrite H. cbn [bind scalar].
  destruct (Qlt_le_dec sc CONF_THRESHOLD) as [_|Hle]; [reflexivity|].
  exfalso. exact (Qlt_not_le _ _ Hlt Hle).
Qed.

(** A grid none of whose scores reaches the threshold adds nothing. *)
Lemma grid_below scores boxes kps stride fh fw ps :
  (forall y x a, (y < fh)%nat -> (x < fw)%nat -> (a < 2)%nat ->
     exists sc, nth_error scores (flat_index fw y x a) = Some [sc]
                /\ sc < CONF_THRESHOLD) ->
  for_each (range fh) (fun y =>
    for_each (range fw) (fun x =>
      for_each (range 2) (decode_anchor scores boxes kps stride fw y x))) ps
  = Ok ps.
Proof.
  intros H. apply for_each_range_skip. intros y Hy s.
  apply for_each_range_skip. intros x Hx s'.
  apply for_each_range_skip. intros a Ha s''.
  destruct (H y x a Hy Hx Ha) as (sc & Hsc & Hlt).
  eapply decode_anchor_below; eassumption.
Qed.

(** A grid all of whose scores but one are below the threshold does what
    the body does at that one anchor. *)
Lemma grid_single scores boxes kps stride fh fw y0 x0 a0 ps :
  (y0 < fh)%nat -> (x0 < fw)%nat -> (a0 < 2)%nat ->
  (forall y x a, (y < fh)%nat -> (x < fw)%nat -> (a < 2)%nat ->
     (y, x, a) <> (y0, x0, a0) ->
     exists sc, nth_error scores (flat_index fw y x a) = Some [sc]
                /\ sc < CONF_THRESHOLD) ->
  for_each (range fh) (fun y =>
    for_each (range fw) (fun x =>
      for_each (range 2) (decode_anchor scores boxes kps stride fw y x))) ps
  = decode_anchor scores boxes kps stride fw y0 x0 a0 ps.
Proof.
  intros Hy0 Hx0 Ha0 H.
  assert (Hskip : forall y x a s, (y < fh)%nat -> (x < fw)%nat -> (a < 2)%nat ->
            (y, x, a) <> (y0, x0, a0) ->
            decode_anchor scores boxes kps stride fw y x a s = Ok s).
  { intros y x a s Hy Hx Ha Hne.
    destruct (H y x a Hy Hx Ha Hne) as (sc & Hsc & Hlt).
    eapply decode_anchor_below; eassumption. }
  rewrite (for_each_range_hit _ fh y0 Hy0).
  - rewrite (for_each_range_hit _ fw x0 Hx0).
    + apply (for_each_range_hit _ 2 a0 Ha0).
      intros a Ha Hne s. apply Hskip; try assumption. congruence.
    + intros x Hx Hne s. apply for_each_range_skip. intros a Ha s'.
      apply Hskip; try assumption. congruence.
  - intros y Hy Hne s. apply for_each_range_skip. intros x Hx s'.
    apply for_each_range_skip. intros a Ha s''.
    apply Hskip; try assumption. congruence.
Qed.

Lemma nms_with_singleton argsort threshold p :
  sorts_ascending argsort -> nms_with argsort threshold [p] = [p].
Proof.
  intros Hs. destruct (Hs [score p]) as [Hperm _].
  apply Permutation_sym, Permutation_length_1_inv in Hperm.
  unfold nms_with, keep_indices, nms_order. cbn [map].
  rewrite Hperm. cbn [rev app]. simp nms_loop. reflexivity.
Qed.

Lemma e2e_stride8 :
  decode_stride e2e_outputs 640 640 (0%nat, 8%nat) [] = Ok [e2e_proposal].
Proof.
  unfold decode_stride.
  change (getitem e2e_outputs 0) with (Ok e2e_scores8).
  change (getitem e2e_outputs (0 + 3)) with (Ok e2e_boxes8).
  change (getitem e2e_outputs (0 + 6)) with (Ok e2e_kps8).
  cbn [bind]. change (feature_size 640 8) with 80%nat.
  etransitivity.
  - apply (grid_single e2e_scores8 e2e_boxes8 e2e_kps8 8 80 80 10 10 0 []);
      try lia.
    intros y x a Hy Hx Ha Hne. exists 0. split; [|reflexivity].
    unfold e2e_scores8, flat_index. rewrite nth_error_one_hot by lia.
    destruct (Nat.eqb_spec (y * 80 * 2 + x * 2 + a) 1620) as [E|E];
      [|reflexivity].
    exfalso. apply Hne.
    assert (y = 10 /\ x = 10 /\ a = 0)%nat as (-> & -> & ->) by lia.
    reflexivity.
  - unfold decode_anchor, getitem.
    change (flat_index 80 10 10 0) with 1620%nat.
    unfold e2e_scores8, e2e_boxes8, e2e_kps8.
    rewrite !nth_error_one_hot by lia.
    rewrite nth_error_repeat by lia.
    reflexivity.
Qed.

Lemma e2e_stride16 ps :
  decode_stride e2e_outputs 640 640 (1%nat, 16%nat) ps = Ok ps.
Proof.
  unfold decode_stride.
  change (getitem e2e_outputs 1) with (Ok e2e_scores16).
  change (getitem e2e_outputs (1 + 3)) with (Ok e2e_boxes16).
  change (getitem e2e_outputs (1 + 6)) with (Ok e2e_kps16).
  cbn [bind]. change (feature_size 640 16) with 40%nat.
  apply grid_below. intros y x a Hy Hx Ha. exists 0. split; [|reflexivity].
  unfold e2e_scores16, flat_index. apply nth_error_repeat. lia.
Qed.

Lemma e2e_stride32 ps :
  decode_stride e2e_outputs 640 640 (2%nat, 32%nat) ps = Ok ps.
Proof.
  unfold decode_stride.
  change (getitem e2e_outputs 2) with (Ok e2e_scores32).
  change (getitem e2e_outputs (2 + 3)) with (Ok e2e_boxes32).
  change (getitem e2e_outputs (2 + 6)) with (Ok e2e_kps32).
  cbn [bind]. change (feature_size 640 32) with 20%nat.
  apply grid_below. intros y x a Hy Hx Ha. exists 0. split; [|reflexivity].
  unfold e2e_scores32, flat_index. apply nth_error_repeat. lia.
Qed.

Lemma decode_proposals_strides outputs w h :
  decode_proposals outputs w h
  = (s1 <- decode_stride outputs w h (0%nat, 8%nat) [] ;;
     s2 <- decode_stride outputs w h (1%nat, 16%nat) s1 ;;
     decode_stride outputs w h (2%nat, 32%nat) s2).
Proof.
  unfold decode_proposals, enumerate, strides.
  cbn [length seq combine for_each].
  destruct (decode_stride outputs w h (0%nat, 8%nat) []) as [s1|];
    cbn [bind]; [|reflexivity].
  destruct (decode_stride outputs w h (1%nat, 16%nat) s1) as [s2|];
    cbn [bind]; [|reflexivity].
  destruct (decode_stride outputs w h (2%nat, 32%nat) s2); reflexivity.
Qed.

Lemma e2e_decode : decode_proposals e2e_outputs 640 640 = Ok [e2e_proposal].
Proof.
  rewrite decode_proposals_strides.
  apply bind_Ok_eq with [e2e_proposal]; [apply e2e_stride8|].
  apply bind_Ok_eq with [e2e_proposal]; [apply e2e_stride16|].
  apply e2e_stride32.
Qed.

(** C2, as the code has it.  On a 640x640 canvas whose only candidate is
    at stride 8, cell (10, 10), anchor 0 (flat index 1620), with score 0.9
    and box row (5, 5, 5, 5): the anchor center is (84, 84), the decoder
    returns exactly one proposal, its box is (44, 44, 124, 124) since the
    distances are multiplied by the stride, its score 0.9 passes the
    threshold 0.5, and [nms] returns the one-proposal list unchanged. *)
Theorem e2e_scenario :
  flat_index 80 10 10 0 = 1620%nat
  /\ nth_error e2e_scores8 1620 = Some [9 # 10]
  /\ nth_error e2e_boxes8 1620 = Some [5; 5; 5; 5]
  /\ anchor_center 10 8 == 84
  /\ decode_proposals e2e_outputs 640 640 = Ok [e2e_proposal]
  /\ box_eq (bbox e2e_proposal) (44, 44, 124, 124)
  /\ score e2e_proposal = 9 # 10
  /\ CONF_THRESHOLD <= score e2e_proposal
  /\ forall argsort, sorts_ascending argsort ->
       nms argsort [e2e_proposal] = [e2e_proposal].
Proof.
  split; [reflexivity|].
  split; [unfold e2e_scores8; rewrite nth_error_one_hot by lia; reflexivity|].
  split; [unfold e2e_boxes8; rewrite nth_error_one_hot by lia; reflexivity|].
  split; [reflexivity|].
  split; [apply e2e_decode|].
  split; [repeat split|].
  split; [reflexivity|].
  split; [discriminate|].
  intros argsort Hs. apply nms_with_singleton, Hs.
Qed.

(** C2 as stated fails: the proposal decoded in that scenario does not
    have the box (79, 79, 89, 89). *)
Lemma e2e_box_is_not_79_89 :
  ~ (exists p, decode_proposals e2e_outputs 640 640 = Ok [p]
               /\ box_eq (bbox p) (79, 79, 89, 89)).
Proof.
  intros (p & Hp & Hb). rewrite e2e_decode in Hp. injection Hp as <-.
  destruct Hb as (H & _). vm_compute in H. discriminate.
Qed.

(** ** Sorting *)

Lemma insert_index_perm scores i l :
  Permutation (insert_index scores i l) (i :: l).
Proof.
  induction l as [|j l IH]; simpl; [reflexivity|].
  destruct (Qle_bool _ _); [reflexivity|].
  rewrite IH. apply perm_swap.
Qed.

Lemma stable_argsort_perm scores :
  Permutation (stable_argsort scores) (seq 0 (length scores)).
Proof.
  unfold stable_argsort. generalize (seq 0 (length scores)) as l.
  induction l as [|i l IH]; simpl; [reflexivity|].
  rewrite insert_index_perm. apply perm_skip, IH.
Qed.

Lemma insert_index_sorted scores i l :
  StronglySorted (stable_before scores) l ->
  Forall (fun j => (i < j)%nat) l ->
  StronglySorted (stable_before scores) (insert_index scores i l).
Proof.
  induction 1 as [|j l Hs IH Hj]; intros Hlt; simpl.
  - constructor; constructor.
  - inversion Hlt as [|? ? Hij Hlt']; subst.
    fold (score_at scores i). fold (score_at scores j).
    destruct (Qle_bool (score_at scores i) (score_at scores j)) eqn:E.
    + apply Qle_bool_iff in E.
      assert (Hi : stable_before scores i j).
      { destruct (Qle_lt_or_eq _ _ E) as [H|H]; [left; exact H | right; tauto]. }
      constructor; [constructor; assumption|].
      constructor; [exact Hi|].
      rewrite Forall_forall in *. intros m Hm.
      specialize (Hj m Hm). specialize (Hlt' m Hm).
      destruct Hj as [H|[H _]].
      * left. eapply Qle_lt_trans; eassumption.
      * destruct (Qle_lt_or_eq _ _ E) as [H'|H'].
        -- left. apply Qlt_le_trans with (score_at scores j); [exact H'|].
           apply Qle_lteq. right. exact H.
        -- right. split; [apply Qeq_trans with (score_at scores j); assumption|].
           exact Hlt'.
    + assert (Hji : score_at scores j < score_at scores i).
      { apply Qnot_le_lt. intro H. apply Qle_bool_iff in H. congruence. }
      constructor; [apply IH; assumption|].
      rewrite Forall_forall in *. intros m Hm.
      apply (Permutation_in _ (insert_index_perm scores i l)) in Hm.
      destruct Hm as [<- | Hm]; [left; exact Hji | apply Hj, Hm].
Qed.

Lemma stable_argsort_sorted scores :
  StronglySorted (stable_before scores) (stable_argsort scores).
Proof.
  unfold stable_argsort. generalize 0%nat as k. generalize (length scores) as n.
  induction n as [|n IH]; intros k; simpl; [constructor|].
  apply insert_index_sorted; [apply IH|].
  rewrite Forall_forall. intros j Hj.
  assert (Hin : In j (seq (S k) n)).
  { eapply Permutation_in; [|exact Hj].
    clear. generalize (seq (S k) n) as l.
    induction l as [|i l IH]; simpl; [reflexivity|].
    rewrite insert_index_perm. apply perm_skip, IH. }
  apply in_seq in Hin. lia.
Qed.

Lemma StronglySorted_snoc {A} (R : A -> A -> Prop) l a :
  StronglySorted R l -> Forall (fun x => R x a) l ->
  StronglySorted R (l ++ [a]).
Proof.
  induction 1 as [|b l Hs IH Hf]; intros Ha; simpl.
  - constructor; constructor.
  - inversion Ha as [|? ? Hb Ha']; subst.
    constructor; [apply IH, Ha'|].
    apply Forall_app. split; [exact Hf | constructor; [exact Hb | constructor]].
Qed.

Lemma StronglySorted_rev {A} (R : A -> A -> Prop) l :
  StronglySorted R l -> StronglySorted (fun x y => R y x) (rev l).
Proof.
  induction 1 as [|a l Hs IH Hf]; simpl; [constructor|].
  apply StronglySorted_snoc; [exact IH|].
  rewrite Forall_forall in *. intros x Hx. apply Hf, in_rev, Hx.
Qed.

Lemma StronglySorted_nth {A} (R : A -> A -> Prop) l :
  StronglySorted R l ->
  forall a b x y, (a < b)%nat ->
    nth_error l a = Some x -> nth_error l b = Some y -> R x y.
Proof.
  induction 1 as [|c l Hs IH Hf]; intros a b x y Hab Ha Hb.
  - destruct a; discriminate.
  - destruct b as [|b]; [lia|]. simpl in Hb.
    destruct a as [|a]; simpl in Ha.
    + injection Ha as <-. rewrite Forall_forall in Hf.
      apply Hf. eapply nth_error_In. exact Hb.
    + apply (IH a b); [lia | assumption | assumption].
Qed.

Lemma StronglySorted_filter {A} (R : A -> A -> Prop) f l :
  StronglySorted R l -> StronglySorted R (filter f l).
Proof.
  induction 1 as [|a l Hs IH Hf]; simpl; [constructor|].
  destruct (f a); [|exact IH].
  constructor; [exact IH|].
  rewrite Forall_forall in *. intros x Hx. apply filter_In in Hx. apply Hf, Hx.
Qed.

Lemma StronglySorted_weaken {A} (R R' : A -> A -> Prop) l :
  (forall x y, R x y -> R' x y) -> StronglySorted R l -> StronglySorted R' l.
Proof.
  intros HR. induction 1 as [|a l Hs IH Hf]; constructor; [exact IH|].
  rewrite Forall_forall in *. intros x Hx. apply HR, Hf, Hx.
Qed.

Lemma stable_before_le scores i j :
  stable_before scores i j -> score_at scores i <= score_at scores j.
Proof.
  intros [H|[H _]]; [apply Qlt_le_weak, H | apply Qle_lteq; right; exact H].
Qed.

(** The insertion sort keeps numpy's promise. *)
Lemma stable_argsort_sorts : sorts_ascending stable_argsort.
Proof.
  intros scores. split; [apply stable_argsort_perm|].
  apply StronglySorted_weaken with (stable_before scores);
    [apply stable_before_le | apply stable_argsort_sorted].
Qed.

Lemma insert_index_last_perm scores i l :
  Permutation (insert_index_last scores i l) (i :: l).
Proof.
  induction l as [|j l IH]; simpl; [reflexivity|].
  destruct (Qle_bool _ _); [|reflexivity].
  rewrite IH. apply perm_swap.
Qed.

Lemma fold_insert_perm (ins : nat -> list nat -> list nat) l :
  (forall i m, Permutation (ins i m) (i :: m)) ->
  Permutation (fold_right ins [] l) l.
Proof.
  intros H. induction l as [|i l IH]; simpl; [reflexivity|].
  rewrite H. apply perm_skip, IH.
Qed.

Lemma insert_index_last_sorted scores i l :
  StronglySorted (fun a b => score_at scores a <= score_at scores b) l ->
  StronglySorted (fun a b => score_at scores a <= score_at scores b)
                 (insert_index_last scores i l).
Proof.
  induction 1 as [|j l Hs IH Hj]; simpl.
  - constructor; constructor.
  - fold (score_at scores i). fold (score_at scores j).
    destruct (Qle_bool (score_at scores j) (score_at scores i)) eqn:E.
    + apply Qle_bool_iff in E. constructor; [exact IH|].
      rewrite Forall_forall in *. intros m Hm.
      apply (Permutation_in _ (insert_index_last_perm scores i l)) in Hm.
      destruct Hm as [<- | Hm]; [exact E | apply Hj, Hm].
    + assert (Hij : score_at scores i < score_at scores j).
      { apply Qnot_le_lt. intro H. apply Qle_bool_iff in H. congruence. }
      constructor; [constructor; assumption|].
      constructor; [apply Qlt_le_weak, Hij|].
      rewrite Forall_forall in *. intros m Hm.
      apply Qle_trans with (score_at scores j);
        [apply Qlt_le_weak, Hij | apply Hj, Hm].
Qed.

(** So does the sort that puts equal scores in descending index order. *)
Lemma reverse_argsort_sorts : sorts_ascending reverse_argsort.
Proof.
  intros scores. unfold reverse_argsort. split.
  - apply fold_insert_perm. intros i m. apply insert_index_last_perm.
  - generalize (seq 0 (length scores)) as l.
    induction l as [|i l IH]; simpl; [constructor|].
    apply insert_index_last_sorted, IH.
Qed.

(** Two lists with the same elements, both sorted by a key that tells their
    elements apart, are the same list. *)
Lemma sorted_perm_unique (key : nat -> Q) l1 : forall l2,
  Permutation l1 l2 ->
  (forall i j, In i l1 -> In j l1 -> i <> j -> ~ key i == key j) ->
  StronglySorted (fun i j => key i <= key j) l1 ->
  StronglySorted (fun i j => key i <= key j) l2 ->
  l1 = l2.
Proof.
  induction l1 as [|a l1 IH]; intros l2 Hp Hk H1 H2.
  - apply Permutation_nil in Hp. congruence.
  - destruct l2 as [|b l2].
    { apply Permutation_sym, Permutation_nil in Hp. discriminate. }
    inversion H1 as [|? ? H1' F1]; subst. inversion H2 as [|? ? H2' F2]; subst.
    rewrite Forall_forall in F1, F2.
    assert (Hab : a = b).
    { destruct (Nat.eq_dec a b) as [E|E]; [exact E|]. exfalso.
      assert (Ha : In a l2).
      { assert (Hin : In a (b :: l2))
          by (apply (Permutation_in _ Hp); left; reflexivity).
        destruct Hin as [Hin|Hin]; [congruence | exact Hin]. }
      assert (Hb : In b l1).
      { assert (Hin : In b (a :: l1))
          by (apply (Permutation_in _ (Permutation_sym Hp)); left; reflexivity).
        destruct Hin as [Hin|Hin]; [congruence | exact Hin]. }
      apply (Hk a b); [left; reflexivity | right; exact Hb | exact E|].
      apply Qle_antisym; [apply F1, Hb | apply F2, Ha]. }
    subst b. f_equal. apply IH.
    + eapply Permutation_cons_inv. exact Hp.
    + intros i j Hi Hj. apply Hk; right; assumption.
    + exact H1'.
    + exact H2'.
Qed.

(** On scores that are all different, every sort that keeps the promise
    gives the order of the insertion sort. *)
Lemma sorts_ascending_unique argsort scores :
  sorts_ascending argsort ->
  (forall i j, (i < length scores)%nat -> (j < length scores)%nat -> i <> j ->
     ~ score_at scores i == score_at scores j) ->
  argsort scores = stable_argsort scores.
Proof.
  intros Hs Hd.
  destruct (Hs scores) as [Hp Hsorted].
  destruct (stable_argsort_sorts scores) as [Hp' Hsorted'].
  apply (sorted_perm_unique (score_at scores)); try assumption.
  - rewrite Hp, Hp'. reflexivity.
  - intros i j Hi Hj. apply (Permutation_in _ Hp) in Hi, Hj.
    apply in_seq in Hi, Hj. apply Hd; lia.
Qed.

(** ** The suppression loop *)

Lemma nms_loop_cons threshold boxes i rest :
  nms_loop threshold boxes (i :: rest)
  = i :: nms_loop threshold boxes (filter (survives threshold boxes i) rest).
Proof. simp nms_loop. reflexivity. Qed.

Lemma nms_loop_In threshold boxes order x :
  In x (nms_loop threshold boxes order) -> In x order.
Proof.
  funelim (nms_loop threshold boxes order); [tauto|].
  intros [<- | Hx]; [left; reflexivity|].
  right. apply H in Hx. apply filter_In in Hx. tauto.
Qed.

Lemma nms_loop_tail_survives threshold boxes i rest x :
  In x (nms_loop threshold boxes (filter (survives threshold boxes i) rest)) ->
  In x rest /\ survives threshold boxes i x = true.
Proof. intros H. apply nms_loop_In in H. apply filter_In in H. exact H. Qed.

Lemma nms_loop_sorted (R : nat -> nat -> Prop) threshold boxes order :
  StronglySorted R order ->
  StronglySorted R (nms_loop threshold boxes order).
Proof.
  funelim (nms_loop threshold boxes order); intros Hs;
    [constructor|].
  inversion Hs as [|? ? Hs' Hf]; subst.
  constructor.
  - apply H. apply StronglySorted_filter. exact Hs'.
  - rewrite Forall_forall in *. intros x Hx.
    apply nms_loop_tail_survives in Hx. apply Hf, Hx.
Qed.

Lemma nms_loop_pairwise threshold boxes order :
  StronglySorted (fun i j => survives threshold boxes i j = true)
                 (nms_loop threshold boxes order).
Proof.
  funelim (nms_loop threshold boxes order); [constructor|].
  constructor; [exact H|].
  rewrite Forall_forall. intros x Hx.
  apply nms_loop_tail_survives in Hx. apply Hx.
Qed.

Lemma nms_loop_removed (R : nat -> nat -> Prop) threshold boxes order :
  StronglySorted R order ->
  forall j, In j order -> ~ In j (nms_loop threshold boxes order) ->
    exists i, In i (nms_loop threshold boxes order)
              /\ R i j /\ survives threshold boxes i j = false.
Proof.
  funelim (nms_loop threshold boxes order); intros Hs j Hj Hn;
    [contradiction|].
  inversion Hs as [|? ? Hs' Hf]; subst. rewrite Forall_forall in Hf.
  destruct Hj as [<- | Hj]; [exfalso; apply Hn; left; reflexivity|].
  destruct (survives threshold boxes i j) eqn:E.
  - destruct (H R (StronglySorted_filter R _ _ Hs') j) as (k & Hk & HR & Hk').
    + apply filter_In. tauto.
    + intro Hin. apply Hn. right. exact Hin.
    + exists k. repeat split; try assumption. right. exact Hk.
  - exists i. repeat split; [left; reflexivity | apply Hf, Hj | exact E].
Qed.

(** ** Intersection over union *)

Lemma clamp_nonneg x : 0 <= Qmax 0 x.
Proof. apply Q.le_max_l. Qed.

Lemma intersection_nonneg bi bj : 0 <= intersection bi bj.
Proof.
  destruct bi as [[[ix1 iy1] ix2] iy2], bj as [[[jx1 jy1] jx2] jy2].
  unfold intersection. apply Qmult_le_0_compat; apply clamp_nonneg.
Qed.

Lemma intersection_comm bi bj : intersection bi bj == intersection bj bi.
Proof.
  destruct bi as [[[ix1 iy1] ix2] iy2], bj as [[[jx1 jy1] jx2] jy2].
  unfold intersection.
  rewrite (Q.max_comm ix1 jx1), (Q.max_comm iy1 jy1).
  rewrite (Q.min_comm ix2 jx2), (Q.min_comm iy2 jy2). reflexivity.
Qed.

Lemma union_area_comm bi bj : union_area bi bj == union_area bj bi.
Proof. unfold union_area. rewrite (intersection_comm bi bj). ring. Qed.

(** The clamped overlap along one axis is at most either extent. *)
Lemma overlap_extent a1 a2 b1 b2 :
  0 < Qmax 0 (Qmin a2 b2 - Qmax a1 b1) ->
  Qmax 0 (Qmin a2 b2 - Qmax a1 b1) <= a2 - a1
  /\ Qmax 0 (Qmin a2 b2 - Qmax a1 b1) <= b2 - b1.
Proof.
  destruct (Q.max_spec 0 (Qmin a2 b2 - Qmax a1 b1)) as [[H1 H2]|[H1 H2]];
    rewrite H2;
    destruct (Q.min_spec a2 b2) as [[H3 H4]|[H3 H4]]; rewrite H4 in *;
    destruct (Q.max_spec a1 b1) as [[H5 H6]|[H5 H6]]; rewrite H6 in *;
    intros; split; lra.
Qed.

(** A positive intersection is contained in both boxes. *)
Lemma intersection_le_areas bi bj :
  0 < intersection bi bj ->
  intersection bi bj <= box_area bi /\ intersection bi bj <= box_area bj.
Proof.
  destruct bi as [[[ix1 iy1] ix2] iy2], bj as [[[jx1 jy1] jx2] jy2].
  unfold intersection, box_area.
  set (w := Qmax 0 (Qmin ix2 jx2 - Qmax ix1 jx1)).
  set (h := Qmax 0 (Qmin iy2 jy2 - Qmax iy1 jy1)).
  intros Hpos.
  assert (Hw0 : 0 <= w) by apply clamp_nonneg.
  assert (Hh0 : 0 <= h) by apply clamp_nonneg.
  assert (Hw : 0 < w) by nra.
  assert (Hh : 0 < h) by nra.
  destruct (overlap_extent ix1 ix2 jx1 jx2 Hw) as [Hwi Hwj].
  destruct (overlap_extent iy1 iy2 jy1 jy2 Hh) as [Hhi Hhj].
  fold w in Hwi, Hwj. fold h in Hhi, Hhj.
  split; nra.
Qed.

Lemma zero_union_zero_intersection bi bj :
  union_area bi bj == 0 -> intersection bi bj == 0.
Proof.
  intros Hu.
  destruct (Qlt_le_dec 0 (intersection bi bj)) as [Hpos|Hle].
  - destruct (intersection_le_areas bi bj Hpos) as [Hi Hj].
    unfold union_area in Hu. lra.
  - pose proof (intersection_nonneg bi bj). lra.
Qed.

Lemma np_div_by_zero a b : b == 0 -> a == 0 -> np_div a b = NaN.
Proof.
  intros Hb Ha. unfold np_div.
  apply Qeq_bool_iff in Hb, Ha. rewrite Hb, Ha. reflexivity.
Qed.

Lemma ovr_zero_union bi bj : union_area bi bj == 0 -> ovr bi bj = NaN.
Proof.
  intros Hu. unfold ovr. apply np_div_by_zero; [exact Hu|].
  apply zero_union_zero_intersection, Hu.
Qed.

Lemma ovr_nonzero_union bi bj :
  ~ union_area bi bj == 0 ->
  ovr bi bj = Fin (intersection bi bj / union_area bi bj).
Proof. intros Hu. unfold ovr. apply np_div_finite. exact Hu. Qed.

Lemma Qeq_bool_compat a a' b b' :
  a == a' -> b == b' -> Qeq_bool a b = Qeq_bool a' b'.
Proof.
  intros Ha Hb. destruct (Qeq_bool a' b') eqn:E.
  - apply Qeq_bool_iff. apply Qeq_bool_iff in E. rewrite Ha, Hb. exact E.
  - destruct (Qeq_bool a b) eqn:E'; [|reflexivity].
    apply Qeq_bool_iff in E'. rewrite Ha, Hb in E'.
    apply Qeq_bool_iff in E'. congruence.
Qed.

Lemma Qle_bool_compat a a' b b' :
  a == a' -> b == b' -> Qle_bool a b = Qle_bool a' b'.
Proof.
  intros Ha Hb. destruct (Qle_bool a' b') eqn:E.
  - apply Qle_bool_iff. apply Qle_bool_iff in E. rewrite Ha, Hb. exact E.
  - destruct (Qle_bool a b) eqn:E'; [|reflexivity].
    apply Qle_bool_iff in E'. rewrite Ha, Hb in E'.
    apply Qle_bool_iff in E'. congruence.
Qed.

Lemma np_le_np_div_compat a a' b b' t :
  a == a' -> b == b' -> np_le (np_div a b) t = np_le (np_div a' b') t.
Proof.
  intros Ha Hb. unfold np_div.
  rewrite (Qeq_bool_compat b b' 0 0 Hb (Qeq_refl 0)).
  rewrite (Qeq_bool_compat a a' 0 0 Ha (Qeq_refl 0)).
  rewrite (Qle_bool_compat 0 0 a a' (Qeq_refl 0) Ha).
  destruct (Qeq_bool b' 0); [reflexivity|].
  simpl. apply Qle_bool_compat; [|reflexivity].
  rewrite Ha, Hb. reflexivity.
Qed.

Lemma np_le_ovr_comm bi bj t : np_le (ovr bi bj) t = np_le (ovr bj bi) t.
Proof.
  unfold ovr. apply np_le_np_div_compat;
    [apply intersection_comm | apply union_area_comm].
Qed.

Lemma np_le_mono v t1 t2 : t1 <= t2 -> np_le v t1 = true -> np_le v t2 = true.
Proof.
  intros Ht. destruct v as [q| | |]; simpl; try congruence.
  intros H. apply Qle_bool_iff. apply Qle_bool_iff in H.
  eapply Qle_trans; eassumption.
Qed.

Lemma np_le_Fin_false q t : np_le (Fin q) t = false <-> t < q.
Proof.
  simpl. split.
  - intros H. apply Qnot_le_lt. intro Hle. apply Qle_bool_iff in Hle. congruence.
  - intros H. destruct (Qle_bool q t) eqn:E; [|reflexivity].
    apply Qle_bool_iff in E. exfalso. exact (Qlt_not_le _ _ H E).
Qed.

(** C5, as the code has it.  The overlap of two boxes is the numpy quotient
    of the intersection area, each axis extent clamped at 0, by the sum of
    the two areas minus the intersection.  With a non-zero union it is that
    finite quotient.  With a zero union it is [nan], no comparison
    [ovr <= threshold] holds, and the remaining proposal is removed by the
    round that kept the other one. *)
Theorem ovr_is_clamped_quotient (bi bj : box) :
  ovr bi bj
  = np_div (intersection bi bj)
           (box_area bi + box_area bj - intersection bi bj)
  /\ (let '(ix1, iy1, ix2, iy2) := bi in
      let '(jx1, jy1, jx2, jy2) := bj in
      intersection bi bj
      = Qmax 0 (Qmin ix2 jx2 - Qmax ix1 jx1)
        * Qmax 0 (Qmin iy2 jy2 - Qmax iy1 jy1))
  /\ (~ union_area bi bj == 0 ->
      ovr bi bj = Fin (intersection bi bj / union_area bi bj))
  /\ (union_area bi bj == 0 ->
      ovr bi bj = NaN /\ forall t, np_le (ovr bi bj) t = false)
  /\ (forall threshold boxes i j rest,
        bi = box_at boxes i -> bj = box_at boxes j -> j <> i ->
        union_area bi bj == 0 ->
        ~ In j (nms_loop threshold boxes (i :: rest))).
Proof.
  split; [reflexivity|]. split.
  { destruct bi as [[[ix1 iy1] ix2] iy2], bj as [[[jx1 jy1] jx2] jy2].
    reflexivity. }
  split; [apply ovr_nonzero_union|]. split.
  - intros Hu. rewrite (ovr_zero_union _ _ Hu). split; reflexivity.
  - intros threshold boxes i j rest -> -> Hne Hu Hin.
    rewrite nms_loop_cons in Hin. destruct Hin as [Hin|Hin]; [congruence|].
    apply nms_loop_tail_survives in Hin. destruct Hin as [_ Hs].
    unfold survives in Hs. rewrite (ovr_zero_union _ _ Hu) in Hs. discriminate.
Qed.

(** ** [nms] on proposals *)

Section Lookup.
Variable ps : list proposal.
Variable p0 : proposal.
Variable i : nat.
Hypothesis Hi : (i < length ps)%nat.

Lemma lookup_nth_error : nth_error ps i = Some (nth i ps p0).
Proof. apply nth_error_nth'. exact Hi. Qed.

Lemma lookup_box : box_at (map bbox ps) i = bbox (nth i ps p0).
Proof.
  unfold box_at. rewrite (nth_indep _ _ (bbox p0)) by (rewrite length_map; exact Hi).
  apply map_nth.
Qed.

Lemma lookup_score : score_at (map score ps) i = score (nth i ps p0).
Proof.
  unfold score_at. rewrite (nth_indep _ _ (score p0)) by (rewrite length_map; exact Hi).
  apply map_nth.
Qed.
End Lookup.

Lemma nth_error_lookup ps j (pj : proposal) :
  nth_error ps j = Some pj ->
  (j < length ps)%nat /\ box_at (map bbox ps) j = bbox pj
  /\ score_at (map score ps) j = score pj.
Proof.
  intros H. assert (Hj : (j < length ps)%nat).
  { apply nth_error_Some. congruence. }
  pose proof (lookup_nth_error ps pj j Hj) as E.
  rewrite H in E. injection E as E.
  repeat split; [exact Hj | |].
  - rewrite (lookup_box ps pj j Hj). congruence.
  - rewrite (lookup_score ps pj j Hj). congruence.
Qed.

(** The test of the loop says that the intersection over union is a number
    not above the threshold. *)
Lemma np_le_ovr_iou bi bj t :
  np_le (ovr bi bj) t = true <-> iou_at_most bi bj t.
Proof.
  assert (Hdef : iou_at_most bi bj t
                 <-> (~ union_area bi bj == 0
                      /\ intersection bi bj / union_area bi bj <= t)).
  { destruct bi as [[[ix1 iy1] ix2] iy2], bj as [[[jx1 jy1] jx2] jy2].
    reflexivity. }
  rewrite Hdef. destruct (Qeq_dec (union_area bi bj) 0) as [Hu|Hu].
  - rewrite (ovr_zero_union _ _ Hu). simpl. split; [discriminate | tauto].
  - rewrite (ovr_nonzero_union _ _ Hu). simpl. rewrite Qle_bool_iff. tauto.
Qed.

Lemma filter_length_mono {A} (f g : A -> bool) l :
  (forall x, f x = true -> g x = true) ->
  (length (filter f l) <= length (filter g l))%nat.
Proof.
  intros H. induction l as [|x l IH]; simpl; [lia|].
  destruct (f x) eqn:E.
  - rewrite (H x E). simpl. lia.
  - destruct (g x); simpl; lia.
Qed.

Section NmsOnProposals.
Variable argsort : list Q -> list nat.
Hypothesis argsort_sorts : sorts_ascending argsort.

Lemma nms_order_perm ps :
  Permutation (nms_order argsort ps) (seq 0 (length ps)).
Proof.
  unfold nms_order. rewrite <- Permutation_rev.
  rewrite (proj1 (argsort_sorts (map score ps))). rewrite length_map.
  reflexivity.
Qed.

Lemma nms_order_In ps i : In i (nms_order argsort ps) <-> (i < length ps)%nat.
Proof.
  split; intros H.
  - apply (Permutation_in _ (nms_order_perm ps)) in H. apply in_seq in H. lia.
  - apply (Permutation_in _ (Permutation_sym (nms_order_perm ps))).
    apply in_seq. lia.
Qed.

Lemma nms_order_sorted ps :
  StronglySorted
    (fun i j => score_at (map score ps) j <= score_at (map score ps) i)
    (nms_order argsort ps).
Proof.
  unfold nms_order.
  apply (StronglySorted_rev
           (fun i j => score_at (map score ps) i <= score_at (map score ps) j)).
  apply (proj2 (argsort_sorts (map score ps))).
Qed.

Lemma keep_indices_In threshold ps i :
  In i (keep_indices argsort threshold ps) -> (i < length ps)%nat.
Proof. intros H. apply nms_loop_In in H. apply nms_order_In, H. Qed.

Lemma nms_with_nth threshold ps a pa :
  nth_error (nms_with argsort threshold ps) a = Some pa ->
  exists i, nth_error (keep_indices argsort threshold ps) a = Some i
            /\ nth_error ps i = Some pa
            /\ box_at (map bbox ps) i = bbox pa
            /\ score_at (map score ps) i = score pa.
Proof.
  unfold nms_with. destruct ps as [|p0 ps']; [destruct a; discriminate|].
  set (ps := p0 :: ps'). rewrite nth_error_map.
  destruct (nth_error (keep_indices argsort threshold ps) a) as [i|] eqn:E;
    [|discriminate].
  cbn [option_map]. intros H. injection H as <-. exists i.
  assert (Hi : (i < length ps)%nat).
  { eapply keep_indices_In, nth_error_In, E. }
  repeat split.
  - apply (lookup_nth_error ps p0 i Hi).
  - apply (lookup_box ps p0 i Hi).
  - apply (lookup_score ps p0 i Hi).
Qed.

(** The returned list holds the proposals at the kept indices, in order. *)
Lemma nms_with_keep_indices threshold ps :
  Forall2 (fun i p => nth_error ps i = Some p)
          (keep_indices argsort threshold ps) (nms_with argsort threshold ps).
Proof.
  unfold nms_with. destruct ps as [|p0 ps'].
  - unfold keep_indices, nms_order.
    assert (E : argsort (map score []) = []).
    { apply Permutation_nil, Permutation_sym.
      apply (proj1 (argsort_sorts (map score []))). }
    rewrite E. cbn [rev]. simp nms_loop. constructor.
  - set (ps := p0 :: ps').
    assert (Hin : forall i, In i (keep_indices argsort threshold ps) ->
                            (i < length ps)%nat) by apply keep_indices_In.
    induction (keep_indices argsort threshold ps) as [|i l IH];
      cbn [map]; constructor.
    + apply lookup_nth_error. apply Hin. left. reflexivity.
    + apply IH. intros j Hj. apply Hin. right. exact Hj.
Qed.

Lemma nms_with_head threshold ps : hd_error (nms_with argsort threshold ps)
  = match nms_order argsort ps with
    | [] => None
    | i :: _ => nth_error ps i
    end.
Proof.
  destruct ps as [|p0 ps'].
  - destruct (nms_order argsort []) as [|i rest] eqn:E; [reflexivity|].
    assert (Hin : In i (nms_order argsort [])) by (rewrite E; left; reflexivity).
    apply nms_order_In in Hin. simpl in Hin. lia.
  - unfold nms_with, keep_indices. set (ps := p0 :: ps').
    pose proof (fun i => proj1 (nms_order_In ps i)) as Hin.
    destruct (nms_order argsort ps) as [|i rest]; [reflexivity|].
    rewrite nms_loop_cons. cbn [map hd_error].
    symmetry. apply lookup_nth_error. apply Hin. left. reflexivity.
Qed.

(** On proposals whose scores are all different the result does not depend
    on the sort. *)
Lemma nms_with_stable threshold ps :
  (forall i j, (i < length ps)%nat -> (j < length ps)%nat -> i <> j ->
     ~ score_at (map score ps) i == score_at (map score ps) j) ->
  nms_with argsort threshold ps = nms_with stable_argsort threshold ps.
Proof.
  intros Hd. unfold nms_with, keep_indices, nms_order.
  rewrite (sorts_ascending_unique argsort (map score ps) argsort_sorts);
    [reflexivity|].
  rewrite length_map. exact Hd.
Qed.

(** C3.  The list returned by [nms] holds the proposals at the kept
    indices, and these are what the greedy loop leaves of the indices in
    descending score order.  Of two kept proposals the later one has a score
    no higher than the earlier one, and their intersection over union, taken
    either way round, is a number not above the threshold.  Every proposal
    that is not kept failed that against a kept proposal of at least its
    score.  Each round keeps the head of the remaining order and drops
    exactly the remaining indices whose test [ovr <= threshold] fails, and
    the test holds exactly when the intersection over union is a number not
    above the threshold. *)
Theorem nms_kept_pairwise (threshold : Q) (proposals : list proposal) :
  Forall2 (fun i p => nth_error proposals i = Some p)
          (keep_indices argsort threshold proposals)
          (nms_with argsort threshold proposals)
  /\ (exists order,
        order = rev (argsort (map score proposals))
        /\ Permutation order (seq 0 (length proposals))
        /\ (forall a b i j, (a < b)%nat ->
              nth_error order a = Some i -> nth_error order b = Some j ->
              forall pi pj, nth_error proposals i = Some pi ->
                nth_error proposals j = Some pj -> score pj <= score pi)
        /\ keep_indices argsort threshold proposals
           = nms_loop threshold (map bbox proposals) order)
  /\ (forall a b pa pb, (a < b)%nat ->
        nth_error (nms_with argsort threshold proposals) a = Some pa ->
        nth_error (nms_with argsort threshold proposals) b = Some pb ->
        score pb <= score pa
        /\ iou_at_most (bbox pa) (bbox pb) threshold
        /\ iou_at_most (bbox pb) (bbox pa) threshold)
  /\ (forall j pj, nth_error proposals j = Some pj ->
        ~ In j (keep_indices argsort threshold proposals) ->
        exists i pi,
          In i (keep_indices argsort threshold proposals)
          /\ nth_error proposals i = Some pi
          /\ score pj <= score pi
          /\ ~ iou_at_most (bbox pi) (bbox pj) threshold)
  /\ (forall boxes i rest,
        nms_loop threshold boxes (i :: rest)
        = i :: nms_loop threshold boxes
                 (filter (fun j => np_le (ovr (box_at boxes i) (box_at boxes j))
                                         threshold) rest))
  /\ (forall bi bj,
        np_le (ovr bi bj) threshold = true <-> iou_at_most bi bj threshold).
Proof.
  split; [apply nms_with_keep_indices|].
  split.
  { exists (nms_order argsort proposals).
    split; [reflexivity|]. split; [apply nms_order_perm|].
    split; [|reflexivity].
    intros a b i j Hab Hi Hj pi pj Hpi Hpj.
    pose proof (StronglySorted_nth _ _ (nms_order_sorted proposals)
                  a b i j Hab Hi Hj) as Hord.
    cbv beta in Hord.
    destruct (nth_error_lookup _ _ _ Hpi) as (_ & _ & <-).
    destruct (nth_error_lookup _ _ _ Hpj) as (_ & _ & <-).
    exact Hord. }
  split; [|split; [|split]].
  - intros a b pa pb Hab Ha Hb.
    destruct (nms_with_nth _ _ _ _ Ha) as (i & Hia & _ & Hbi & Hsi).
    destruct (nms_with_nth _ _ _ _ Hb) as (j & Hjb & _ & Hbj & Hsj).
    pose proof (StronglySorted_nth _ _
      (nms_loop_sorted _ threshold (map bbox proposals) _
         (nms_order_sorted proposals)) a b i j Hab Hia Hjb) as Hord.
    pose proof (StronglySorted_nth _ _
      (nms_loop_pairwise threshold (map bbox proposals)
         (nms_order argsort proposals))
      a b i j Hab Hia Hjb) as Hpair.
    cbv beta in Hord, Hpair. unfold survives in Hpair.
    rewrite Hbi, Hbj in Hpair. rewrite Hsi, Hsj in Hord.
    split; [exact Hord|]. split.
    + apply np_le_ovr_iou. exact Hpair.
    + apply np_le_ovr_iou. rewrite np_le_ovr_comm. exact Hpair.
  - intros j pj Hj Hn.
    destruct (nth_error_lookup _ _ _ Hj) as (Hlt & Hbj & Hsj).
    destruct (nms_loop_removed _ threshold (map bbox proposals) _
                (nms_order_sorted proposals) j) as (i & Hi & Hord & Hrem).
    + apply nms_order_In, Hlt.
    + exact Hn.
    + pose proof (keep_indices_In _ _ _ Hi) as Hilt.
      exists i, (nth i proposals pj).
      cbv beta in Hord. unfold survives in Hrem.
      rewrite (lookup_box proposals pj i Hilt), Hbj in Hrem.
      rewrite (lookup_score proposals pj i Hilt), Hsj in Hord.
      split; [exact Hi|]. split; [apply lookup_nth_error, Hilt|].
      split; [exact Hord|].
      intros Hiou. apply np_le_ovr_iou in Hiou. congruence.
  - intros boxes i rest. apply nms_loop_cons.
  - intros bi bj. apply np_le_ovr_iou.
Qed.

(** C10.  For a non-empty proposal list [nms] returns a non-empty list
    whose first element is an input proposal of maximal score. *)
Theorem nms_keeps_a_maximum (threshold : Q) (proposals : list proposal) :
  proposals <> [] ->
  exists p rest,
    nms_with argsort threshold proposals = p :: rest
    /\ In p proposals
    /\ forall q, In q proposals -> score q <= score p.
Proof.
  intros Hne. destruct proposals as [|p0 ps'] eqn:Eps; [congruence|].
  rewrite <- Eps.
  assert (Hlen : (0 < length proposals)%nat) by (subst; simpl; lia).
  destruct (nms_order argsort proposals) as [|i rest] eqn:Eo.
  { apply nms_order_In in Hlen. rewrite Eo in Hlen. contradiction. }
  assert (Hi : (i < length proposals)%nat).
  { apply nms_order_In. rewrite Eo. left. reflexivity. }
  exists (nth i proposals p0),
    (map (fun k => nth k proposals p0)
       (nms_loop threshold (map bbox proposals)
          (filter (survives threshold (map bbox proposals) i) rest))).
  split; [|split].
  - unfold nms_with, keep_indices. rewrite Eo, nms_loop_cons.
    rewrite Eps at 1. reflexivity.
  - apply nth_In, Hi.
  - intros q Hq. apply In_nth_error in Hq. destruct Hq as [j Hj].
    destruct (nth_error_lookup _ _ _ Hj) as (Hlt & _ & Hsj).
    rewrite <- Hsj, <- (lookup_score proposals p0 i Hi).
    pose proof (nms_order_sorted proposals) as Hs. rewrite Eo in Hs.
    apply nms_order_In in Hlt. rewrite Eo in Hlt.
    destruct Hlt as [<- | Hin]; [apply Qle_refl|].
    inversion Hs as [|? ? _ Hf]; subst. rewrite Forall_forall in Hf.
    apply Hf, Hin.
Qed.

End NmsOnProposals.

(** The scores of a short concrete list are all different. *)
Ltac distinct_scores :=
  let i := fresh "i" in let j := fresh "j" in
  let Hi := fresh "Hi" in let Hj := fresh "Hj" in
  let Hne := fresh "Hne" in let H := fresh "H" in
  intros i j Hi Hj Hne; simpl in Hi, Hj;
  do 5 (try (destruct i as [|i])); try lia;
  do 5 (try (destruct j as [|j])); try lia;
  intro H; vm_compute in H; discriminate.

Lemma e2e_scenario_witness :
  decode_proposals e2e_outputs 640 640 = Ok [e2e_proposal]
  /\ nms stable_argsort [e2e_proposal] = [e2e_proposal].
Proof.
  destruct e2e_scenario as (_ & _ & _ & _ & Hd & _ & _ & _ & Hn).
  split; [exact Hd | exact (Hn stable_argsort stable_argsort_sorts)].
Defined.

Lemma nms_kept_pairwise_witness :
  Forall2 (fun i p => nth_error chain_input i = Some p)
          (keep_indices stable_argsort NMS_THRESHOLD chain_input)
          (nms_with stable_argsort NMS_THRESHOLD chain_input)
  /\ length (nms_with stable_argsort NMS_THRESHOLD chain_input) = 2%nat.
Proof.
  split; [|reflexivity].
  apply (nms_kept_pairwise stable_argsort stable_argsort_sorts
           NMS_THRESHOLD chain_input).
Defined.

Lemma nms_keeps_a_maximum_witness :
  exists p rest,
    nms_with stable_argsort NMS_THRESHOLD chain_input = p :: rest
    /\ In p chain_input
    /\ forall q, In q chain_input -> score q <= score p.
Proof.
  apply (nms_keeps_a_maximum stable_argsort stable_argsort_sorts
           NMS_THRESHOLD chain_input).
  discriminate.
Defined.

(** C4, as the code has it.  For every sort that keeps numpy's promise the
    order processed by [nms] is a permutation of the indices in which an
    earlier index never has a lower score than a later one.  The order of
    equal scores is not fixed by that promise: of two sorts that keep it,
    one makes [nms] process index 1 before index 0 on two overlapping
    proposals of equal score and keep the second proposal, the other makes
    it process index 0 first and keep the first. *)
Theorem nms_order_descending :
  (forall argsort, sorts_ascending argsort ->
   forall proposals,
     Permutation (nms_order argsort proposals) (seq 0 (length proposals))
     /\ forall a b i j, (a < b)%nat ->
          nth_error (nms_order argsort proposals) a = Some i ->
          nth_error (nms_order argsort proposals) b = Some j ->
          score_at (map score proposals) j <= score_at (map score proposals) i)
  /\ (sorts_ascending stable_argsort
      /\ nms_order stable_argsort tie_input = [1; 0]%nat
      /\ nms stable_argsort tie_input = [tie_second])
  /\ (sorts_ascending reverse_argsort
      /\ nms_order reverse_argsort tie_input = [0; 1]%nat
      /\ nms reverse_argsort tie_input = [tie_first]).
Proof.
  split; [|split].
  - intros argsort Hs proposals. split; [apply nms_order_perm, Hs|].
    intros a b i j Hab Hi Hj.
    exact (StronglySorted_nth _ _ (nms_order_sorted argsort Hs proposals)
             a b i j Hab Hi Hj).
  - split; [apply stable_argsort_sorts | split; reflexivity].
  - split; [apply reverse_argsort_sorts | split; reflexivity].
Qed.

Lemma nms_order_descending_witness :
  Permutation (nms_order stable_argsort chain_input)
              (seq 0 (length chain_input))
  /\ forall a b i j, (a < b)%nat ->
       nth_error (nms_order stable_argsort chain_input) a = Some i ->
       nth_error (nms_order stable_argsort chain_input) b = Some j ->
       score_at (map score chain_input) j <= score_at (map score chain_input) i.
Proof.
  apply (proj1 nms_order_descending stable_argsort stable_argsort_sorts
           chain_input).
Defined.

(** C4 as stated fails: a sort that keeps numpy's promise processes, of two
    proposals with equal scores, the one at index 1 first, and it is the one
    kept. *)
Lemma ties_not_in_ascending_index :
  ~ (forall argsort, sorts_ascending argsort ->
     forall a b i j, (a < b)%nat ->
       nth_error (nms_order argsort tie_input) a = Some i ->
       nth_error (nms_order argsort tie_input) b = Some j ->
       score_at (map score tie_input) i == score_at (map score tie_input) j ->
       (i < j)%nat)
  /\ nms stable_argsort tie_input = [tie_second].
Proof.
  split; [|reflexivity].
  intros H. specialize (H stable_argsort stable_argsort_sorts 0 1 1 0)%nat.
  assert (1 < 0)%nat; [|lia].
  apply H; [lia | reflexivity | reflexivity | reflexivity].
Qed.

(** C5 as stated fails: two proposals on the same one-point box have union
    0, their overlap is not 0, the test against the threshold fails and
    [nms] drops the second one, whatever the sort. *)
Lemma zero_union_is_suppressed :
  union_area (bbox point_first) (bbox point_second) == 0
  /\ ovr (bbox point_first) (bbox point_second) <> Fin 0
  /\ np_le (ovr (bbox point_first) (bbox point_second)) NMS_THRESHOLD = false
  /\ forall argsort, sorts_ascending argsort ->
       nms argsort [point_first; point_second] = [point_first].
Proof.
  split; [reflexivity|]. split; [|split; [reflexivity|]].
  - intros H. vm_compute in H. discriminate.
  - intros argsort Hs. unfold nms.
    rewrite (nms_with_stable argsort Hs); [reflexivity | distinct_scores].
Qed.

(** C6, as the code has it.  For thresholds [t1 <= t2], every index that
    stays in the order after a round with threshold [t1] also stays after
    the same round with [t2], so a single round keeps at least as many; and
    the first proposal kept is the same for both thresholds. *)
Theorem nms_round_monotone (t1 t2 : Q) (boxes : list box) (i : nat)
    (rest : list nat) :
  t1 <= t2 ->
  (forall j, In j (filter (survives t1 boxes i) rest) ->
             In j (filter (survives t2 boxes i) rest))
  /\ (length (filter (survives t1 boxes i) rest)
      <= length (filter (survives t2 boxes i) rest))%nat
  /\ forall argsort, sorts_ascending argsort ->
     forall proposals,
       hd_error (nms_with argsort t1 proposals)
       = hd_error (nms_with argsort t2 proposals).
Proof.
  intros Ht. split; [|split].
  - intros j Hj. apply filter_In in Hj. apply filter_In.
    split; [tauto|]. unfold survives in *. eapply np_le_mono; [exact Ht|tauto].
  - apply filter_length_mono. intros j. unfold survives. apply np_le_mono, Ht.
  - intros argsort Hs ps. rewrite !(nms_with_head argsort Hs). reflexivity.
Qed.

Lemma nms_round_monotone_witness :
  (length (filter (survives (1 # 4) (map bbox chain_input) 0) [1; 2; 3])
   <= length (filter (survives (1 # 2) (map bbox chain_input) 0) [1; 2; 3]))%nat.
Proof.
  apply (nms_round_monotone (1 # 4) (1 # 2) (map bbox chain_input) 0 [1; 2; 3])%nat.
  discriminate.
Defined.

(** C6 as stated fails for every sort: on four chained boxes the threshold
    1/4 keeps three proposals and the threshold 1/2 keeps two. *)
Lemma nms_threshold_not_monotone :
  ~ (exists argsort, sorts_ascending argsort
       /\ forall proposals t1 t2, t1 <= t2 ->
            (length (nms_with argsort t1 proposals)
             <= length (nms_with argsort t2 proposals))%nat).
Proof.
  intros (argsort & Hs & H). specialize (H chain_input (1 # 4) (1 # 2)).
  rewrite !(nms_with_stable argsort Hs) in H by distinct_scores.
  assert (Hle : (3 <= 2)%nat); [|lia].
  apply H. discriminate.
Qed.

(* ================================================================== *)
(** * Further properties *)
(* ================================================================== *)

(** ** Decoder: what is emitted and what is read *)

Lemma for_each_invariant {A St} (Inv : St -> Prop)
    (body : A -> St -> result St) xs :
  (forall x s s', In x xs -> Inv s -> body x s = Ok s' -> Inv s') ->
  forall s r, Inv s -> for_each xs body s = Ok r -> Inv r.
Proof.
  induction xs as [|x xs IH]; simpl; intros Hb s r Hs H.
  - injection H as <-. exact Hs.
  - destruct (body x s) as [s'|e] eqn:E; simpl in H; [|discriminate].
    apply (IH (fun y u u' Hy => Hb y u u' (or_intror Hy)) s' r); [|exact H].
    apply (Hb x s s'); [left; reflexivity | exact Hs | exact E].
Qed.

Lemma map_result_length {A B} (f : A -> result B) xs : forall ys,
  map_result f xs = Ok ys -> length ys = length xs.
Proof.
  induction xs as [|a xs IH]; simpl; intros ys H.
  - injection H as <-. reflexivity.
  - destruct (f a) as [b|e]; simpl in H; [|discriminate].
    destruct (map_result f xs) as [bs|e] eqn:Ebs; simpl in H; [|discriminate].
    injection H as <-. simpl. f_equal. apply IH. reflexivity.
Qed.

Lemma decode_anchor_appends scores boxes landmarks stride fw y x a ps ps' :
  decode_anchor scores boxes landmarks stride fw y x a ps = Ok ps' ->
  ps' = ps
  \/ exists p, ps' = ps ++ [p]
               /\ decoded_at scores boxes landmarks stride fw y x a p.
Proof.
  unfold decode_anchor.
  destruct (getitem scores _) as [row|] eqn:Erow; cbn [bind]; [|discriminate].
  destruct (scalar row) as [sc|] eqn:Esc; cbn [bind]; [|discriminate].
  apply getitem_Ok in Erow. apply scalar_Ok in Esc. subst row.
  destruct (Qlt_le_dec sc CONF_THRESHOLD) as [Hlt|Hle].
  - intros H. injection H as <-. left. reflexivity.
  - destruct (getitem boxes _) as [bp|] eqn:Ebp; cbn [bind]; [|discriminate].
    destruct (unpack4 _) as [[[[l t] r] b]|] eqn:Eu; cbn [bind]; [|discriminate].
    destruct (getitem landmarks _) as [kp|] eqn:Ekp; cbn [bind]; [|discriminate].
    destruct_map_result dk Edk; cbn [bind]; [|discriminate].
    intros H. injection H as <-. right.
    apply getitem_Ok in Ebp, Ekp. apply unpack4_scaled in Eu.
    destruct Eu as (l0 & t0 & r0 & b0 & -> & -> & -> & -> & ->).
    eexists. split; [reflexivity|].
    exists l0, t0, r0, b0, kp. cbn [score bbox kps].
    repeat split; try assumption.
    + apply map_result_length in Edk. exact Edk.
    + intros k Hk.
      assert (Hs : nth_error (range 5) k = Some k).
      { unfold range. rewrite nth_error_seq.
        destruct (Nat.ltb_spec k 5); [reflexivity | lia]. }
      destruct (map_result_nth _ _ _ Edk _ _ Hs) as (p & Hp & Hn).
      destruct (getitem kp (k * 2)) as [kx|] eqn:Ex; cbn [bind] in Hp;
        [|discriminate].
      destruct (getitem kp (k * 2 + 1)) as [ky|] eqn:Ey; cbn [bind] in Hp;
        [|discriminate].
      injection Hp as <-. apply getitem_Ok in Ex, Ey.
      exists kx, ky. tauto.
Qed.

Lemma decode_stride_sound outputs w h i stride ps ps' :
  nth_error strides i = Some stride ->
  Forall (decoded_from outputs w h) ps ->
  decode_stride outputs w h (i, stride) ps = Ok ps' ->
  Forall (decoded_from outputs w h) ps'.
Proof.
  intros Hi Hps. unfold decode_stride.
  destruct (getitem outputs i) as [sc|] eqn:E1; cbn [bind]; [|discriminate].
  destruct (getitem outputs (i + 3)) as [bx|] eqn:E2; cbn [bind]; [|discriminate].
  destruct (getitem outputs (i + 6)) as [kp|] eqn:E3; cbn [bind]; [|discriminate].
  apply getitem_Ok in E1, E2, E3.
  apply for_each_invariant; [|exact Hps]. intros y s s' Hy Hs.
  apply for_each_invariant; [|exact Hs]. intros x u u' Hx Hu.
  apply for_each_invariant; [|exact Hu]. intros a v v' Ha Hv Hbody.
  apply in_seq in Hy, Hx, Ha.
  destruct (decode_anchor_appends _ _ _ _ _ _ _ _ _ _ Hbody) as [->|(p & -> & Hp)];
    [exact Hv|].
  apply Forall_app. split; [exact Hv|]. constructor; [|constructor].
  exists i, stride, y, x, a, sc, bx, kp. repeat split; try assumption; lia.
Qed.

Lemma decode_proposals_invariant (P : proposal -> Prop) outputs w h ps :
  (forall i stride s s', nth_error strides i = Some stride ->
     Forall P s -> decode_stride outputs w h (i, stride) s = Ok s' ->
     Forall P s') ->
  decode_proposals outputs w h = Ok ps -> Forall P ps.
Proof.
  intros Hstep. unfold decode_proposals.
  apply for_each_invariant; [|constructor].
  intros [i stride] s s' Hin Hs. apply Hstep; [|exact Hs].
  unfold enumerate, strides in Hin. simpl in Hin.
  destruct Hin as [H|[H|[H|[]]]]; injection H as <- <-; reflexivity.
Qed.

(** X1.  Every proposal the decoder returns was appended for some stride,
    cell and anchor of the grids: its score is the score row at the flat
    index and is not below the confidence threshold, its box and its five
    landmarks are the rows at that index scaled by the stride and added to
    the anchor center. *)
Theorem decode_sound (outputs : list tensor) (img_width img_height : Z)
    (ps : list proposal) :
  decode_proposals outputs img_width img_height = Ok ps ->
  Forall (decoded_from outputs img_width img_height) ps.
Proof.
  apply decode_proposals_invariant.
  intros i stride s s' Hi Hs Hbody.
  eapply decode_stride_sound; eassumption.
Qed.

Lemma decode_sound_witness :
  exists ps,
    decode_proposals small_outputs 16 8 = Ok ps
    /\ Forall (decoded_from small_outputs 16 8) ps.
Proof.
  eexists. split.
  - vm_compute. reflexivity.
  - apply (decode_sound small_outputs 16 8). reflexivity.
Defined.

Lemma getitem_Raise {A} (xs : list A) i e : getitem xs i = Raise e -> e = IndexError.
Proof. unfold getitem. destruct (nth_error xs i); congruence. Qed.

Lemma getitem_beyond {A} (xs : list A) i :
  (length xs <= i)%nat -> getitem xs i = Raise IndexError.
Proof.
  intros H. unfold getitem. apply nth_error_None in H. rewrite H. reflexivity.
Qed.

Lemma getitem_Some {A} (xs : list A) i a :
  nth_error xs i = Some a -> getitem xs i = Ok a.
Proof. intros H. unfold getitem. rewrite H. reflexivity. Qed.

Lemma bind_Ok_inv {A B} (m : result A) (k : A -> result B) r :
  bind m k = Ok r -> exists a, m = Ok a /\ k a = Ok r.
Proof. destruct m as [a|e]; simpl; [eauto | discriminate]. Qed.

(** X2.  When the decoder returns, there are at least nine outputs and each
    score tensor has at least [fh * fw * 2] rows for its stride. *)
Theorem decode_requires_rows (outputs : list tensor) (img_width img_height : Z)
    (ps : list proposal) :
  decode_proposals outputs img_width img_height = Ok ps ->
  (9 <= length outputs)%nat
  /\ forall i stride scores,
       nth_error strides i = Some stride ->
       nth_error outputs i = Some scores ->
       (feature_size img_height stride * feature_size img_width stride * 2
        <= length scores)%nat.
Proof.
  intros H. split.
  - rewrite decode_proposals_strides in H.
    apply bind_Ok_inv in H. destruct H as (s1 & _ & H).
    apply bind_Ok_inv in H. destruct H as (s2 & _ & H).
    unfold decode_stride in H.
    apply bind_Ok_inv in H. destruct H as (sc & _ & H).
    apply bind_Ok_inv in H. destruct H as (bx & _ & H).
    apply bind_Ok_inv in H. destruct H as (kp & Hkp & _).
    apply getitem_Ok in Hkp.
    assert (nth_error outputs (2 + 6) <> None) as Hn by congruence.
    apply nth_error_Some in Hn. simpl in Hn. lia.
  - intros i stride scores Hi Hsc.
    assert (Hd : stride_decoded outputs img_width img_height (i, stride) ps).
    { apply (for_each_all (decode_stride outputs img_width img_height)
               (stride_decoded outputs img_width img_height))
        with (enumerate strides) []; try assumption.
      - intros x s s'. apply decode_stride_extends.
      - intros [i0 s0] s l (sc & bx & kp & H1 & H2 & H3 & Hc).
        exists sc, bx, kp. repeat split; try assumption.
        intros y x a Hy Hx Ha. apply emitted_extends, Hc; assumption.
      - intros x s s'. apply decode_stride_decoded.
      - destruct i as [|[|[|i]]]; simpl in Hi;
          [injection Hi as <-; simpl; tauto .. | destruct i; discriminate]. }
    destruct Hd as (sc & bx & kp & H1 & _ & _ & Hc).
    rewrite Hsc in H1. injection H1 as <-.
    set (fh := feature_size img_height stride) in *.
    set (fw := feature_size img_width stride) in *.
    destruct fh as [|fh']; [lia|]. destruct fw as [|fw']; [lia|].
    destruct (Hc fh' fw' 1%nat) as (s0 & Hs0 & _); try lia.
    assert (nth_error scores (flat_index (S fw') fh' fw' 1) <> None) as Hn
      by congruence.
    apply nth_error_Some in Hn. unfold flat_index in Hn. lia.
Qed.

Lemma decode_requires_rows_witness :
  (9 <= length small_outputs)%nat
  /\ forall i stride scores,
       nth_error strides i = Some stride ->
       nth_error small_outputs i = Some scores ->
       (feature_size 8 stride * feature_size 16 stride * 2 <= length scores)%nat.
Proof.
  eapply (decode_requires_rows small_outputs 16 8). vm_compute. reflexivity.
Defined.

(** X3.  With fewer than seven outputs the decoder raises [IndexError],
    whatever the canvas. *)
Theorem decode_missing_outputs (outputs : list tensor)
    (img_width img_height : Z) :
  (length outputs < 7)%nat ->
  decode_proposals outputs img_width img_height = Raise IndexError.
Proof.
  intros Hlen. rewrite decode_proposals_strides. unfold decode_stride at 1.
  destruct (getitem outputs 0) as [sc|e] eqn:E1; cbn [bind];
    [|apply getitem_Raise in E1; subst; reflexivity].
  destruct (getitem outputs (0 + 3)) as [bx|e] eqn:E2; cbn [bind];
    [|apply getitem_Raise in E2; subst; reflexivity].
  rewrite getitem_beyond by (simpl; lia). reflexivity.
Qed.

Lemma decode_missing_outputs_witness :
  decode_proposals [[[9 # 10]]; [[0]]; [[0]]] 16 8 = Raise IndexError.
Proof. apply decode_missing_outputs. simpl. lia. Defined.

(** ** Rows and tensors beyond the grid are never read *)

Lemma getitem_prefix {A} (xs e : list A) i a :
  getitem xs i = Ok a -> getitem (xs ++ e) i = Ok a.
Proof.
  intros H. apply getitem_Ok in H. apply getitem_Some.
  rewrite nth_error_app1; [exact H|]. apply nth_error_Some. congruence.
Qed.

Lemma decode_anchor_prefix sc sc' bx bx' kp kp' stride fw y x a ps r :
  tensor_prefix sc sc' -> tensor_prefix bx bx' -> tensor_prefix kp kp' ->
  decode_anchor sc bx kp stride fw y x a ps = Ok r ->
  decode_anchor sc' bx' kp' stride fw y x a ps = Ok r.
Proof.
  intros [e1 ->] [e2 ->] [e3 ->]. unfold decode_anchor.
  destruct (getitem sc _) as [row|] eqn:Erow; cbn [bind]; [|discriminate].
  rewrite (getitem_prefix _ e1 _ _ Erow). cbn [bind].
  destruct (scalar row) as [s|]; cbn [bind]; [|discriminate].
  destruct (Qlt_le_dec s CONF_THRESHOLD); [tauto|].
  destruct (getitem bx _) as [bp|] eqn:Ebp; cbn [bind]; [|discriminate].
  rewrite (getitem_prefix _ e2 _ _ Ebp). cbn [bind].
  destruct (unpack4 _) as [[[[l t] r0] b]|]; cbn [bind]; [|discriminate].
  destruct (getitem kp _) as [krow|] eqn:Ekp; cbn [bind]; [|discriminate].
  rewrite (getitem_prefix _ e3 _ _ Ekp). cbn [bind]. tauto.
Qed.

Lemma for_each_transfer {A St} (body body' : A -> St -> result St) xs :
  (forall x s r, body x s = Ok r -> body' x s = Ok r) ->
  forall s r, for_each xs body s = Ok r -> for_each xs body' s = Ok r.
Proof.
  intros Hb. induction xs as [|x xs IH]; simpl; intros s r H; [exact H|].
  destruct (body x s) as [s'|e] eqn:E; simpl in H; [|discriminate].
  rewrite (Hb _ _ _ E). simpl. apply IH, H.
Qed.

Lemma decode_stride_extend outputs outputs' w h i_stride ps r :
  outputs_extend outputs outputs' ->
  decode_stride outputs w h i_stride ps = Ok r ->
  decode_stride outputs' w h i_stride ps = Ok r.
Proof.
  intros Hext. destruct i_stride as [i stride]. unfold decode_stride.
  destruct (getitem outputs i) as [sc|] eqn:E1; cbn [bind]; [|discriminate].
  destruct (getitem outputs (i + 3)) as [bx|] eqn:E2; cbn [bind]; [|discriminate].
  destruct (getitem outputs (i + 6)) as [kp|] eqn:E3; cbn [bind]; [|discriminate].
  apply getitem_Ok in E1, E2, E3.
  destruct (Hext _ _ E1) as (sc' & H1 & P1).
  destruct (Hext _ _ E2) as (bx' & H2 & P2).
  destruct (Hext _ _ E3) as (kp' & H3 & P3).
  rewrite (getitem_Some _ _ _ H1), (getitem_Some _ _ _ H2),
    (getitem_Some _ _ _ H3). cbn [bind].
  apply for_each_transfer. intros y s u.
  apply for_each_transfer. intros x s' u'.
  apply for_each_transfer. intros a s'' u''.
  apply decode_anchor_prefix; assumption.
Qed.

(** X4.  Rows beyond the grid and tensors beyond the ninth are never read:
    a successful decode gives the same proposals when rows are added at the
    end of the tensors and tensors at the end of the outputs.  The decoder
    checks no shape. *)
Theorem decode_ignores_extra_rows (outputs outputs' : list tensor)
    (img_width img_height : Z) (ps : list proposal) :
  outputs_extend outputs outputs' ->
  decode_proposals outputs img_width img_height = Ok ps ->
  decode_proposals outputs' img_width img_height = Ok ps.
Proof.
  intros Hext. unfold decode_proposals. apply for_each_transfer.
  intros x s r. apply decode_stride_extend, Hext.
Qed.

Lemma outputs_extend_app (outputs extra : list tensor) :
  outputs_extend outputs
    (map (fun t : tensor => t ++ [[7]; [7; 7]]) outputs ++ extra).
Proof.
  intros i t Ht. exists (t ++ [[7]; [7; 7]]). split; [|eexists; reflexivity].
  rewrite nth_error_app1.
  - rewrite nth_error_map, Ht. reflexivity.
  - rewrite length_map. apply nth_error_Some. congruence.
Qed.

Lemma decode_ignores_extra_rows_witness :
  exists ps,
    decode_proposals small_outputs 16 8 = Ok ps
    /\ decode_proposals
         (map (fun t : tensor => t ++ [[7]; [7; 7]]) small_outputs ++ [[[1]]]) 16 8
       = Ok ps.
Proof.
  eexists. split.
  - vm_compute. reflexivity.
  - apply (decode_ignores_extra_rows small_outputs).
    + apply outputs_extend_app.
    + reflexivity.
Defined.

(** X5.  When every score of every grid is below the threshold the decoder
    returns the empty list, without reading a row of the box or landmark
    tensors. *)
Theorem decode_all_below (outputs : list tensor) (img_width img_height : Z) :
  (forall i stride, nth_error strides i = Some stride ->
     exists scores boxes landmarks,
       nth_error outputs i = Some scores
       /\ nth_error outputs (i + 3) = Some boxes
       /\ nth_error outputs (i + 6) = Some landmarks
       /\ forall y x a,
            (y < feature_size img_height stride)%nat ->
            (x < feature_size img_width stride)%nat -> (a < 2)%nat ->
            exists sc,
              nth_error scores
                (flat_index (feature_size img_width stride) y x a) = Some [sc]
              /\ sc < CONF_THRESHOLD) ->
  decode_proposals outputs img_width img_height = Ok [].
Proof.
  intros H.
  assert (Hs : forall i stride ps, nth_error strides i = Some stride ->
            decode_stride outputs img_width img_height (i, stride) ps = Ok ps).
  { intros i stride ps Hi.
    destruct (H i stride Hi) as (sc & bx & kp & H1 & H2 & H3 & Hc).
    unfold decode_stride.
    rewrite (getitem_Some _ _ _ H1), (getitem_Some _ _ _ H2),
      (getitem_Some _ _ _ H3). cbn [bind].
    apply grid_below. exact Hc. }
  rewrite decode_proposals_strides.
  rewrite (Hs 0%nat 8%nat) by reflexivity. cbn [bind].
  rewrite (Hs 1%nat 16%nat) by reflexivity. cbn [bind].
  apply (Hs 2%nat 32%nat). reflexivity.
Qed.

Lemma decode_all_below_witness : decode_proposals quiet_outputs 16 8 = Ok [].
Proof.
  apply decode_all_below. intros i stride Hi.
  destruct i as [|[|[|i]]]; simpl in Hi;
    [injection Hi as <- .. | destruct i; discriminate].
  - exists [[0]; [1 # 10]; [0]; [1 # 4]], [], []. repeat split.
    intros y x a Hy Hx Ha.
    change (feature_size 8 8) with 1%nat in Hy.
    change (feature_size 16 8) with 2%nat in Hx |- *.
    assert (y = 0%nat) as -> by lia.
    destruct x as [|[|x]]; [| |lia];
      (destruct a as [|[|a]]; [| |lia]); eexists; split; reflexivity.
  - exists [[0]; [0]], [], []. repeat split.
    intros y x a Hy Hx Ha.
    change (feature_size 8 16) with 1%nat in Hy.
    change (feature_size 16 16) with 1%nat in Hx |- *.
    assert (y = 0%nat) as -> by lia. assert (x = 0%nat) as -> by lia.
    destruct a as [|[|a]]; [| |lia]; eexists; split; reflexivity.
  - exists [[1 # 4]; [0]], [], []. repeat split.
    intros y x a Hy Hx Ha.
    change (feature_size 8 32) with 1%nat in Hy.
    change (feature_size 16 32) with 1%nat in Hx |- *.
    assert (y = 0%nat) as -> by lia. assert (x = 0%nat) as -> by lia.
    destruct a as [|[|a]]; [| |lia]; eexists; split; reflexivity.
Defined.

(** ** The range of the overlap *)

Lemma quotient_range bi bj :
  ~ union_area bi bj == 0 ->
  0 <= intersection bi bj / union_area bi bj
  /\ intersection bi bj / union_area bi bj <= 1.
Proof.
  intros Hu. pose proof (intersection_nonneg bi bj) as H0.
  destruct (Qlt_le_dec 0 (intersection bi bj)) as [Hpos|Hle].
  - destruct (intersection_le_areas bi bj Hpos) as [Hi Hj].
    assert (Hupos : 0 < union_area bi bj) by (unfold union_area; lra).
    split.
    + apply Qle_shift_div_l; [exact Hupos | lra].
    + apply Qle_shift_div_r; [exact Hupos|]. unfold union_area in *. lra.
  - assert (Hz : intersection bi bj == 0) by lra.
    assert (Hq : intersection bi bj / union_area bi bj == 0).
    { rewrite Hz. unfold Qdiv. ring. }
    rewrite Hq. split; lra.
Qed.

(** X6.  The overlap of two boxes, whatever their coordinates, is either
    [nan], exactly when the union is 0, or a number between 0 and 1. *)
Theorem ovr_range (bi bj : box) :
  (union_area bi bj == 0 /\ ovr bi bj = NaN)
  \/ (~ union_area bi bj == 0
      /\ exists q, ovr bi bj = Fin q /\ 0 <= q /\ q <= 1).
Proof.
  destruct (Qeq_dec (union_area bi bj) 0) as [Hu|Hu].
  - left. split; [exact Hu | apply ovr_zero_union, Hu].
  - right. split; [exact Hu|]. eexists.
    split; [apply ovr_nonzero_union, Hu | apply quotient_range, Hu].
Qed.

Lemma np_le_ovr_negative t bi bj : t < 0 -> np_le (ovr bi bj) t = false.
Proof.
  intros Ht. destruct (Qeq_dec (union_area bi bj) 0) as [Hu|Hu].
  - rewrite (ovr_zero_union _ _ Hu). reflexivity.
  - rewrite (ovr_nonzero_union _ _ Hu).
    destruct (quotient_range bi bj Hu) as [H0 _].
    apply np_le_Fin_false. lra.
Qed.

Lemma np_le_ovr_one t bi bj :
  1 <= t -> ~ union_area bi bj == 0 -> np_le (ovr bi bj) t = true.
Proof.
  intros Ht Hu. rewrite (ovr_nonzero_union _ _ Hu).
  destruct (quotient_range bi bj Hu) as [_ H1].
  simpl. apply Qle_bool_iff. lra.
Qed.

Lemma clamp_pos x : 0 < x -> Qmax 0 x == x.
Proof. intros H. apply Q.max_r. lra. Qed.

Lemma ovr_same_box b :
  proper b -> exists q, ovr b b = Fin q /\ q == 1.
Proof.
  destruct b as [[[x1 y1] x2] y2]. intros [Hx Hy].
  assert (Hi : intersection (x1, y1, x2, y2) (x1, y1, x2, y2)
               == box_area (x1, y1, x2, y2)).
  { unfold intersection, box_area.
    rewrite !Q.max_id, !Q.min_id. rewrite !clamp_pos by lra. reflexivity. }
  assert (Ha : 0 < box_area (x1, y1, x2, y2)) by (unfold box_area; nra).
  assert (Hu : union_area (x1, y1, x2, y2) (x1, y1, x2, y2)
               == box_area (x1, y1, x2, y2)).
  { unfold union_area. rewrite Hi. ring. }
  eexists. split.
  - apply ovr_nonzero_union. rewrite Hu. lra.
  - rewrite Hi, Hu. field. lra.
Qed.

Lemma intersection_box_eq a b b' :
  box_eq b b' -> intersection a b == intersection a b'.
Proof.
  destruct a as [[[ax1 ay1] ax2] ay2], b as [[[x1 y1] x2] y2],
    b' as [[[x1' y1'] x2'] y2'].
  intros (H1 & H2 & H3 & H4). unfold intersection.
  rewrite H1, H2, H3, H4. reflexivity.
Qed.

Lemma box_area_box_eq b b' : box_eq b b' -> box_area b == box_area b'.
Proof.
  destruct b as [[[x1 y1] x2] y2], b' as [[[x1' y1'] x2'] y2'].
  intros (H1 & H2 & H3 & H4). unfold box_area.
  rewrite H1, H2, H3, H4. reflexivity.
Qed.

Lemma np_le_ovr_box_eq a b b' t :
  box_eq b b' -> np_le (ovr a b) t = np_le (ovr a b') t.
Proof.
  intros H. unfold ovr. apply np_le_np_div_compat.
  - apply intersection_box_eq, H.
  - unfold union_area.
    rewrite (intersection_box_eq a b b' H), (box_area_box_eq b b' H).
    reflexivity.
Qed.

(** ** What [nms] keeps *)

Lemma nms_loop_NoDup threshold boxes order :
  NoDup order -> NoDup (nms_loop threshold boxes order).
Proof.
  funelim (nms_loop threshold boxes order); intros Hd; [constructor|].
  inversion Hd as [|? ? Hni Hd']; subst. constructor.
  - intro Hin. apply nms_loop_tail_survives in Hin. tauto.
  - apply H. apply NoDup_filter. exact Hd'.
Qed.

Lemma filter_all {A} (f : A -> bool) l :
  (forall x, In x l -> f x = true) -> filter f l = l.
Proof.
  induction l as [|x l IH]; simpl; intros H; [reflexivity|].
  rewrite (H x) by (left; reflexivity). f_equal.
  apply IH. intros y Hy. apply H. right. exact Hy.
Qed.

Lemma filter_none {A} (f : A -> bool) l :
  (forall x, In x l -> f x = false) -> filter f l = [].
Proof.
  induction l as [|x l IH]; simpl; intros H; [reflexivity|].
  rewrite (H x) by (left; reflexivity).
  apply IH. intros y Hy. apply H. right. exact Hy.
Qed.

Lemma nms_loop_all_survive threshold boxes order :
  NoDup order ->
  (forall i j, In i order -> In j order -> i <> j ->
     survives threshold boxes i j = true) ->
  nms_loop threshold boxes order = order.
Proof.
  induction order as [|i rest IH]; intros Hd H; [reflexivity|].
  inversion Hd as [|? ? Hni Hd']; subst.
  rewrite nms_loop_cons. f_equal.
  rewrite filter_all.
  - apply IH; [exact Hd'|]. intros a b Ha Hb. apply H; right; assumption.
  - intros j Hj. apply H; [left; reflexivity | right; exact Hj|].
    intros ->. contradiction.
Qed.

Lemma map_nth_seq {A} (l : list A) d :
  map (fun i => nth i l d) (seq 0 (length l)) = l.
Proof.
  induction l as [|a l IH]; [reflexivity|].
  cbn [length seq map nth]. f_equal.
  rewrite <- seq_shift, map_map. exact IH.
Qed.

Section NmsKeeps.

Variable argsort : list Q -> list nat.
Hypothesis argsort_sorts : sorts_ascending argsort.

Lemma nms_order_NoDup ps : NoDup (nms_order argsort ps).
Proof.
  apply (Permutation_NoDup
           (Permutation_sym (nms_order_perm argsort argsort_sorts ps))).
  apply seq_NoDup.
Qed.

Lemma nms_with_pairwise threshold ps a b pa pb :
  (a < b)%nat ->
  nth_error (nms_with argsort threshold ps) a = Some pa ->
  nth_error (nms_with argsort threshold ps) b = Some pb ->
  np_le (ovr (bbox pa) (bbox pb)) threshold = true.
Proof.
  intros Hab Ha Hb.
  destruct (nms_with_nth argsort argsort_sorts _ _ _ _ Ha)
    as (i & Hia & _ & Hbi & _).
  destruct (nms_with_nth argsort argsort_sorts _ _ _ _ Hb)
    as (j & Hjb & _ & Hbj & _).
  pose proof (StronglySorted_nth _ _
    (nms_loop_pairwise threshold (map bbox ps) (nms_order argsort ps))
    a b i j Hab Hia Hjb) as Hpair.
  cbv beta in Hpair. unfold survives in Hpair.
  rewrite Hbi, Hbj in Hpair. exact Hpair.
Qed.

Lemma nms_with_In threshold ps p :
  In p (nms_with argsort threshold ps) -> In p ps.
Proof.
  intros H. apply In_nth_error in H. destruct H as [a Ha].
  destruct (nms_with_nth argsort argsort_sorts _ _ _ _ Ha) as (i & _ & Hi & _).
  eapply nth_error_In, Hi.
Qed.

Lemma nms_with_length threshold ps :
  length (nms_with argsort threshold ps)
  = length (keep_indices argsort threshold ps).
Proof.
  unfold nms_with. destruct ps as [|p0 ps']; [|apply length_map].
  unfold keep_indices.
  pose proof (nms_order_perm argsort argsort_sorts []) as Hp.
  apply Permutation_sym, Permutation_nil in Hp. rewrite Hp. reflexivity.
Qed.

(** X7.  For a sort that keeps numpy's promise [nms] keeps distinct, valid
    indices: every proposal it returns is one of the inputs and it returns
    no more proposals than it was given. *)
Theorem nms_selects_inputs (threshold : Q) (proposals : list proposal) :
  NoDup (keep_indices argsort threshold proposals)
  /\ (forall i, In i (keep_indices argsort threshold proposals) ->
                (i < length proposals)%nat)
  /\ (forall p, In p (nms_with argsort threshold proposals) -> In p proposals)
  /\ (length (nms_with argsort threshold proposals) <= length proposals)%nat.
Proof.
  assert (Hd : NoDup (keep_indices argsort threshold proposals))
    by apply nms_loop_NoDup, nms_order_NoDup.
  split; [exact Hd|].
  split; [apply (keep_indices_In argsort argsort_sorts)|].
  split; [apply nms_with_In|].
  rewrite nms_with_length.
  assert (Hincl : incl (keep_indices argsort threshold proposals)
                       (seq 0 (length proposals))).
  { intros i Hi. apply in_seq.
    apply (keep_indices_In argsort argsort_sorts) in Hi. lia. }
  pose proof (NoDup_incl_length Hd Hincl) as Hlen.
  rewrite length_seq in Hlen. exact Hlen.
Qed.

(** X8.  With a threshold below 1, two kept proposals never have the same
    box when that box has a positive extent on both axes. *)
Theorem nms_drops_equal_boxes (threshold : Q) (proposals : list proposal) :
  threshold < 1 ->
  forall a b pa pb, (a < b)%nat ->
    nth_error (nms_with argsort threshold proposals) a = Some pa ->
    nth_error (nms_with argsort threshold proposals) b = Some pb ->
    proper (bbox pa) ->
    ~ box_eq (bbox pa) (bbox pb).
Proof.
  intros Ht a b pa pb Hab Ha Hb Hp Heq.
  pose proof (nms_with_pairwise _ _ _ _ _ _ Hab Ha Hb) as H.
  assert (Heq' : box_eq (bbox pb) (bbox pa)).
  { destruct (bbox pa) as [[[x1 y1] x2] y2], (bbox pb) as [[[x1' y1'] x2'] y2'].
    destruct Heq as (H1 & H2 & H3 & H4). repeat split; symmetry; assumption. }
  rewrite (np_le_ovr_box_eq _ _ _ _ Heq') in H.
  destruct (ovr_same_box _ Hp) as (q & Hq & H1). rewrite Hq in H.
  simpl in H. apply Qle_bool_iff in H. lra.
Qed.

Lemma nms_with_cons threshold p0 ps :
  nms_with argsort threshold (p0 :: ps)
  = map (fun i => nth i (p0 :: ps) p0)
        (keep_indices argsort threshold (p0 :: ps)).
Proof. reflexivity. Qed.

(** A list all of whose pairs pass the test is kept whole. *)
Lemma nms_with_all_survive threshold ps :
  (forall a b pa pb, a <> b ->
     nth_error ps a = Some pa -> nth_error ps b = Some pb ->
     np_le (ovr (bbox pa) (bbox pb)) threshold = true) ->
  Permutation (nms_with argsort threshold ps) ps.
Proof.
  intros H. destruct ps as [|p0 ps']; [reflexivity|].
  rewrite nms_with_cons. set (ps := p0 :: ps') in *.
  unfold keep_indices. rewrite nms_loop_all_survive.
  - rewrite <- (map_nth_seq ps p0) at 2.
    apply Permutation_map, nms_order_perm, argsort_sorts.
  - apply nms_order_NoDup.
  - intros i j Hi Hj Hne.
    apply (nms_order_In argsort argsort_sorts) in Hi, Hj.
    unfold survives.
    rewrite (lookup_box ps p0 i Hi), (lookup_box ps p0 j Hj).
    apply (H i j); [exact Hne | apply lookup_nth_error, Hi
                    | apply lookup_nth_error, Hj].
Qed.

(** X9.  Running [nms] on its own output with the same threshold keeps all
    of it: the result is a permutation of that output. *)
Theorem nms_idempotent (threshold : Q) (proposals : list proposal) :
  Permutation (nms_with argsort threshold
                 (nms_with argsort threshold proposals))
              (nms_with argsort threshold proposals).
Proof.
  apply nms_with_all_survive. intros a b pa pb Hne Ha Hb.
  destruct (Nat.lt_total a b) as [Hlt|[Heq|Hgt]]; [|contradiction|].
  - exact (nms_with_pairwise _ _ _ _ _ _ Hlt Ha Hb).
  - rewrite np_le_ovr_comm. exact (nms_with_pairwise _ _ _ _ _ _ Hgt Hb Ha).
Qed.

(** X10.  With a threshold of at least 1 and no pair of boxes of union 0,
    [nms] keeps every proposal. *)
Theorem nms_keeps_all (threshold : Q) (proposals : list proposal) :
  1 <= threshold ->
  (forall p q, In p proposals -> In q proposals ->
     ~ union_area (bbox p) (bbox q) == 0) ->
  Permutation (nms_with argsort threshold proposals) proposals.
Proof.
  intros Ht Hu. apply nms_with_all_survive. intros a b pa pb _ Ha Hb.
  apply np_le_ovr_one; [exact Ht|].
  apply Hu; eapply nth_error_In; eassumption.
Qed.

(** X11.  With a negative threshold [nms] keeps exactly one proposal of a
    non-empty list. *)
Theorem nms_negative_threshold (threshold : Q) (proposals : list proposal) :
  threshold < 0 -> proposals <> [] ->
  length (nms_with argsort threshold proposals) = 1%nat.
Proof.
  intros Ht Hne. destruct proposals as [|p0 ps']; [congruence|].
  rewrite nms_with_cons, length_map. set (ps := p0 :: ps').
  unfold keep_indices.
  destruct (nms_order argsort ps) as [|i rest] eqn:Eo.
  - exfalso. assert (Hin : In 0%nat (nms_order argsort ps))
      by (apply (nms_order_In argsort argsort_sorts); simpl; lia).
    rewrite Eo in Hin. contradiction.
  - rewrite nms_loop_cons, filter_none.
    + simp nms_loop. reflexivity.
    + intros j _. unfold survives. apply np_le_ovr_negative, Ht.
Qed.

(** ** From the decoder to the detections *)

Lemma nms_with_nonempty threshold ps :
  ps <> [] -> nms_with argsort threshold ps <> [].
Proof.
  intros Hne H. destruct ps as [|p0 ps']; [congruence|].
  pose proof (nms_with_head argsort argsort_sorts threshold (p0 :: ps')) as Hh.
  rewrite H in Hh.
  set (ps := p0 :: ps') in *.
  destruct (nms_order argsort ps) as [|i rest] eqn:Eo.
  - assert (Hin : In 0%nat (nms_order argsort ps))
      by (apply (nms_order_In argsort argsort_sorts); simpl; lia).
    rewrite Eo in Hin. contradiction.
  - assert (Hi : (i < length ps)%nat)
      by (apply (nms_order_In argsort argsort_sorts); rewrite Eo;
          left; reflexivity).
    simpl in Hh. symmetry in Hh. apply nth_error_None in Hh. lia.
Qed.

(** X12.  After the inference call [main] never takes the early return
    ['Found 0 faces after NMS']: it reports no faces exactly when the
    decoder returns the empty list, otherwise it reports the number of kept
    faces, at least one, and rescales each of them; it raises exactly when
    the decoder does. *)
Theorem main_reports (outputs : list tensor) (ratio : Q) :
  main_after_inference argsort outputs ratio <> Ok Found0FacesAfterNMS
  /\ (main_after_inference argsort outputs ratio = Ok Found0Faces <->
      decode_proposals outputs 640 640 = Ok [])
  /\ (forall n faces,
        main_after_inference argsort outputs ratio = Ok (FoundFaces n faces) ->
        n = length faces /\ (1 <= n)%nat
        /\ postprocess argsort outputs ratio = Ok faces)
  /\ (forall e, main_after_inference argsort outputs ratio = Raise e <->
                decode_proposals outputs 640 640 = Raise e).
Proof.
  unfold main_after_inference, postprocess. cbn [TARGET_SHAPE fst snd].
  destruct (decode_proposals outputs 640 640) as [ps|e]; cbn [bind].
  - destruct ps as [|p ps'].
    + split; [discriminate|]. split; [split; reflexivity|].
      split; [discriminate|]. intros e; split; discriminate.
    + pose proof (nms_with_nonempty NMS_THRESHOLD (p :: ps')) as Hne.
      fold (nms argsort (p :: ps')) in Hne. cbv zeta.
      destruct (nms argsort (p :: ps')) as [|f fs] eqn:Ef;
        [exfalso; apply Hne; congruence|].
      split; [discriminate|]. split; [split; discriminate|].
      split; [|intros e; split; discriminate].
      intros n faces Hf. injection Hf as <- <-.
      split; [symmetry; apply (length_map (rescale ratio) (f :: fs))|].
      split; [simpl; lia | reflexivity].
  - split; [discriminate|]. split; [split; discriminate|].
    split; [discriminate|]. intros e0; split; intros Hf; congruence.
Qed.

(** X13.  Every detection obtained from a successful decode by [nms] and
    rescaling has a score not below the confidence threshold and five
    landmarks. *)
Theorem detections_pass_threshold (outputs : list tensor)
    (img_width img_height : Z) (ratio : Q) (ps : list proposal) :
  decode_proposals outputs img_width img_height = Ok ps ->
  Forall (fun d => CONF_THRESHOLD <= det_score d
                   /\ length (det_kps d) = 5%nat)
         (map (rescale ratio) (nms argsort ps)).
Proof.
  intros H.
  apply (decode_proposals_invariant (decoded_from outputs img_width img_height))
    in H; [|intros i stride s s' Hi Hs Hb; eapply decode_stride_sound; eassumption].
  rewrite Forall_forall in *.
  intros d Hd. apply in_map_iff in Hd. destruct Hd as (p & <- & Hp).
  apply nms_with_In in Hp. specialize (H p Hp).
  destruct H as (i & stride & y & x & a & sc & bx & kp & _ & _ & _ & _ & _
                 & _ & _ & (l & t & r & b & krow & _ & Hc & _ & _ & _ & Hlen & _)).
  unfold rescale. destruct (bbox p) as [[[x1 y1] x2] y2].
  cbn [det_score det_kps]. rewrite length_map. tauto.
Qed.

End NmsKeeps.

Lemma nms_selects_inputs_witness :
  NoDup (keep_indices stable_argsort NMS_THRESHOLD chain_input)
  /\ (forall p, In p (nms_with stable_argsort NMS_THRESHOLD chain_input) ->
                In p chain_input)
  /\ (length (nms_with stable_argsort NMS_THRESHOLD chain_input)
      <= length chain_input)%nat.
Proof.
  destruct (nms_selects_inputs stable_argsort stable_argsort_sorts
              NMS_THRESHOLD chain_input) as (H1 & _ & H3 & H4).
  split; [exact H1|]. split; [exact H3 | exact H4].
Defined.

Lemma nms_drops_equal_boxes_witness :
  ~ box_eq (0, 1, 20, 3) (0, 0, 20, 2).
Proof.
  apply (nms_drops_equal_boxes stable_argsort stable_argsort_sorts
           NMS_THRESHOLD chain_input (eq_refl : NMS_THRESHOLD < 1)
           0%nat 1%nat
           {| bbox := (0, 1, 20, 3); score := 9 # 10; kps := repeat (10, 1) 5 |}
           {| bbox := (0, 0, 20, 2); score := 8 # 10; kps := repeat (10, 1) 5 |}).
  - lia.
  - reflexivity.
  - reflexivity.
  - split; reflexivity.
Defined.

Lemma nms_idempotent_witness :
  Permutation
    (nms_with stable_argsort NMS_THRESHOLD
       (nms_with stable_argsort NMS_THRESHOLD chain_input))
    (nms_with stable_argsort NMS_THRESHOLD chain_input).
Proof.
  apply (nms_idempotent stable_argsort stable_argsort_sorts
           NMS_THRESHOLD chain_input).
Defined.

Lemma nms_keeps_all_witness :
  Permutation (nms_with stable_argsort 1 apart_input) apart_input.
Proof.
  apply (nms_keeps_all stable_argsort stable_argsort_sorts);
    [discriminate|].
  intros p q Hp Hq.
  simpl in Hp, Hq.
  destruct Hp as [<-|[<-|[<-|[]]]]; destruct Hq as [<-|[<-|[<-|[]]]];
    discriminate.
Defined.

Lemma nms_negative_threshold_witness :
  length (nms_with stable_argsort (- (1 # 10)) apart_input) = 1%nat.
Proof.
  apply (nms_negative_threshold stable_argsort stable_argsort_sorts);
    [reflexivity | discriminate].
Defined.

Lemma main_reports_witness :
  main_after_inference stable_argsort e2e_outputs (1 # 2)
  <> Ok Found0FacesAfterNMS.
Proof.
  exact (proj1 (main_reports stable_argsort stable_argsort_sorts
                  e2e_outputs (1 # 2))).
Defined.

Lemma detections_pass_threshold_witness :
  exists ps,
    decode_proposals small_outputs 16 8 = Ok ps
    /\ Forall (fun d => CONF_THRESHOLD <= det_score d
                        /\ length (det_kps d) = 5%nat)
              (map (rescale (1 # 2)) (nms stable_argsort ps)).
Proof.
  eexists. split.
  - vm_compute. reflexivity.
  - apply (detections_pass_threshold stable_argsort stable_argsort_sorts
             small_outputs 16 8).
    reflexivity.
Defined.

(** ** Letterbox of an image that already has the target shape *)

(** X14.  An image that already has the target shape gets ratio 1 and
    resized dimensions equal to its own. *)
Theorem letterbox_same_shape (img : image) :
  (0 < img_w img)%N -> (0 < img_h img)%N ->
  exists r,
    preprocess_image_topleft img (Z.of_N (img_h img)) (Z.of_N (img_w img))
    = Ok r
    /\ ratio r == 1
    /\ new_w r = Z.of_N (img_w img)
    /\ new_h r = Z.of_N (img_h img).
Proof.
  intros Hw Hh.
  set (w := Z.of_N (img_w img)). set (h := Z.of_N (img_h img)).
  assert (Hw' : (0 < w)%Z) by (subst w; lia).
  assert (Hh' : (0 < h)%Z) by (subst h; lia).
  pose proof (inject_Z_pos w Hw') as Hqw. pose proof (inject_Z_pos h Hh') as Hqh.
  assert (H1w : inject_Z w / inject_Z w == 1) by (field; lra).
  assert (H1h : inject_Z h / inject_Z h == 1) by (field; lra).
  assert (Hr : Qmin (inject_Z w / inject_Z w) (inject_Z h / inject_Z h) == 1).
  { rewrite H1w, H1h. apply Q.min_id. }
  assert (Hfw : Qfloor (inject_Z w * Qmin (inject_Z w / inject_Z w)
                                          (inject_Z h / inject_Z h)) = w).
  { rewrite Hr, Qmult_1_r. apply Qfloor_Z. }
  assert (Hfh : Qfloor (inject_Z h * Qmin (inject_Z w / inject_Z w)
                                          (inject_Z h / inject_Z h)) = h).
  { rewrite Hr, Qmult_1_r. apply Qfloor_Z. }
  destruct (letterbox_cases img h w Hw Hh Hh' Hw') as (_ & _ & Hok & _).
  fold w h in Hok. rewrite Hfw, Hfh in Hok.
  destruct Hok as (r & Hpre & Hratio & Hnw & Hnh & _); [lia | lia |].
  exists r. split; [exact Hpre|].
  split; [rewrite Hratio; exact Hr|]. split; assumption.
Qed.

Lemma letterbox_same_shape_witness :
  exists r,
    preprocess_image_topleft {| img_h := 640; img_w := 640 |} 640 640 = Ok r
    /\ ratio r == 1 /\ new_w r = 640%Z /\ new_h r = 640%Z.
Proof.
  apply (letterbox_same_shape {| img_h := 640; img_w := 640 |}); reflexivity.
Defined.

(** ** The ratio handed from the letterbox to the rescaling *)

(** X15.  For a positive target shape, whenever the letterbox returns, its
    ratio is positive, so dividing a face by it gives finite coordinates,
    each the coordinate over the ratio. *)
Theorem letterbox_ratio_divides (img : image) (target_height target_width : Z)
    (r : letterboxed) :
  (0 < target_height)%Z -> (0 < target_width)%Z ->
  preprocess_image_topleft img target_height target_width = Ok r ->
  0 < ratio r
  /\ forall face, rescale (ratio r) face = divide_by (ratio r) face.
Proof.
  intros Hth Htw. unfold preprocess_image_topleft, py_truediv.
  destruct (Z.eqb_spec (Z.of_N (img_w img)) 0) as [|Hw]; [discriminate|].
  destruct (Z.eqb_spec (Z.of_N (img_h img)) 0) as [|Hh]; [discriminate|].
  cbn [bind].
  destruct (cv2_resize _ _) as [resized_img|]; [|discriminate]. cbn [bind].
  destruct (np_full _ _ _) as [blank|]; [|discriminate]. cbn [bind].
  destruct (paste_topleft _ _ _ _) as [pasted|]; [|discriminate]. cbn [bind].
  intros H. injection H as <-. cbn [ratio].
  assert (Hpos : 0 < py_min (inject_Z target_width / inject_Z (Z.of_N (img_w img)))
                        (inject_Z target_height / inject_Z (Z.of_N (img_h img)))).
  { apply py_min_pos; apply quotient_pos; lia. }
  split; [exact Hpos|].
  intros face. apply rescale_divide_by. lra.
Qed.

Lemma letterbox_ratio_divides_witness :
  exists r,
    preprocess_image_topleft {| img_h := 480; img_w := 1280 |} 640 640 = Ok r
    /\ 0 < ratio r
    /\ forall face, rescale (ratio r) face = divide_by (ratio r) face.
Proof.
  eexists. split; [reflexivity|].
  apply (letterbox_ratio_divides {| img_h := 480; img_w := 1280 |} 640 640);
    reflexivity.
Defined.
